(** * Qgular: the observable data model and the widget group

    A shallow embedding of [qgular.uncompressed.js]: the signal/slot mixin
    [QPubSub], the data nodes [QData], [QDataList] and [QDataDict], the
    [QTransformer] and the sorted insertion of [QWidgetGroup].

    Conventions of the embedding.
    - A JavaScript object used as a map is a [gmap string _]; reading a key
      that is absent ([None]) is reading [undefined].  Keys are taken not
      to be among the names every object inherits ([toString], ...), and
      [undefined] is not a value that is stored.
    - Data nodes are objects with identity: they live in a store indexed by
      locations, and [v !== elem] is inequality of locations.
    - A method is a state transformer that ends in a completion: it either
      returns or throws, and what it wrote before throwing stays written.
    - The file chains its prototypes to constructor functions
      ([Object.create(QPubSub)], [Object.create(QDataNode)]) and hangs the
      methods of the widget group on an undeclared [QWidgetFactory]; the
      embedding resolves every method to the body the file writes for the
      class, and follows the bodies statement by statement.
    - jQuery is not part of the repository.  [$.extend({}, x)] copies the
      enumerable entries of [x] into a fresh mapping: the entries of a
      mapping, the elements of an array and the characters of a string by
      index, and nothing for the other values.  [$.each(d, f)] visits every
      entry of a mapping once and every element of an array by its index,
      and nothing for [null] and [undefined] (jQuery 1.12, 2.2 and later).
      A mapping with a numeric [length] entry, which jQuery would visit as
      an array, is not in the model. *)

From Stdlib Require Import Ascii.
From stdpp Require Import gmap strings list fin_maps pretty sorting.

(** ** JavaScript values and completions *)

Module Js.

(** The values a snapshot or a patch holds: the values of JSON, with
    mappings for its objects, and instances of [QDeleteThis]. *)
#[warnings="-register-all"]
Inductive value :=
| VNull
| VBool (b : bool)
| VNum (n : Z)
| VStr (s : string)
| VDelete
| VArr (items : list value)
| VObj (m : gmap string value).

(** [typeof v]; an instance of [QDeleteThis] is an object, and so are
    [null] and an array. *)
Definition typeof (v : value) : string :=
  match v with
  | VNull | VDelete | VArr _ | VObj _ => "object"
  | VBool _ => "boolean"
  | VNum _ => "number"
  | VStr _ => "string"
  end.

(** [v instanceof QDeleteThis] *)
Definition instanceof_QDeleteThis (v : value) : bool :=
  match v with VDelete => true | _ => false end.

Inductive error :=
| TypeError
| Error (msg : string).

Inductive completion (A : Type) :=
| Return (a : A)
| Throw (e : error).
Arguments Return {A} a.
Arguments Throw {A} e.

(** What [this] is bound to in a function body. *)
Inductive this_binding :=
| ThisUndefined   (* a plain call [f()] in strict code *)
| ThisWindow      (* [f.call(window)] *)
| ThisFresh       (* [new f()]: the object under construction *)
| ThisReceiver.   (* [o.f()]: the object the method is called on *)

(** The enumerable entries of a string: its characters, by index. *)
Fixpoint chars_from (i : nat) (s : string) : gmap string value :=
  match s with
  | EmptyString => ∅
  | String c s' => <[pretty i := VStr (String c EmptyString)]> (chars_from (S i) s')
  end.

(** The enumerable entries of an array: its elements, by index. *)
Fixpoint items_from (i : nat) (l : list value) : gmap string value :=
  match l with
  | [] => ∅
  | v :: l' => <[pretty i := v]> (items_from (S i) l')
  end.

(** [$.extend({}, x)]: a fresh mapping with the enumerable entries of [x];
    [undefined] (an absent key), [null], numbers, booleans and delete
    markers have none. *)
Definition extend (x : option value) : gmap string value :=
  match x with
  | Some (VObj m) => m
  | Some (VArr l) => items_from 0 l
  | Some (VStr s) => chars_from 0 s
  | _ => ∅
  end.

End Js.
Export Js.

(** ** Support functions: pathspecs *)

Module Pathspec.

(** [o[key]] for a value [o]; [None] is [undefined].  Reading a property
    of [null] is a [TypeError]; an array and a string answer to their
    indices and to [length]. *)
Definition get_property (o : value) (key : string) : completion (option value) :=
  match o with
  | VNull => Throw TypeError
  | VObj m => Return (m !! key)
  | VArr l =>
      Return (if decide (key = "length") then Some (VNum (Z.of_nat (length l)))
              else items_from 0 l !! key)
  | VStr s =>
      Return (if decide (key = "length") then Some (VNum (Z.of_nat (String.length s)))
              else chars_from 0 s !! key)
  | VBool _ | VNum _ | VDelete => Return None
  end.

(** The loop of [pathToChain]: [$.each] over the keys that are left, with
    the [chain] so far and its [last] value; [return false] ends the loop
    with [last = undefined], and the function returns [undefined]. *)
Fixpoint pathToChain_each (chain : list value) (last : value) (p : list string)
    : completion (option (list value)) :=
  match p with
  | [] => Return (Some chain)
  | key :: p' =>
      match get_property last key with
      | Throw e => Throw e
      | Return None => Return None
      | Return (Some next) => pathToChain_each (chain ++ [next]) next p'
      end
  end.

(** [pathToChain(o, p)]; [o] may be [undefined]. *)
Definition pathToChain (o : option value) (p : list string)
    : completion (option (list value)) :=
  match o with
  | Some v => pathToChain_each [v] v p
  | None =>
      match p with
      | [] => Return None          (* last === undefined *)
      | _ :: _ => Throw TypeError  (* undefined[this] *)
      end
  end.

(** [pathToVal(o, p)]: [chain.pop()]. *)
Definition pathToVal (o : option value) (p : list string) : completion (option value) :=
  match pathToChain o p with
  | Throw e => Throw e
  | Return None => Return None
  | Return (Some chain) => Return (last chain)
  end.

(** [s.split('.')] *)
Fixpoint split_dots (s : string) : list string :=
  match s with
  | EmptyString => [EmptyString]
  | String c s' =>
      if decide (c = "."%char) then EmptyString :: split_dots s'
      else match split_dots s' with
           | segment :: rest => String c segment :: rest
           | [] => [String c EmptyString]
           end
  end.

(** A reference to a value: a dotted string or an array of keys. *)
Inductive ref :=
| RefString (s : string)
| RefPath (p : list string).

(** [mkpath(ref)] *)
Definition mkpath (r : ref) : list string :=
  match r with
  | RefString s => split_dots s
  | RefPath p => p
  end.

(** What bindings are read from: a widget or a plain value. *)
Inductive bound :=
| BoundWidget
| BoundValue (o : option value).

(** [refToVal(o, ref)].  For a widget it calls [o.get(ref)], and a
    [QWidget] of this file has no method [get]. *)
Definition refToVal (o : bound) (r : ref) : completion (option value) :=
  match o with
  | BoundWidget => Throw TypeError
  | BoundValue o => pathToVal o (mkpath r)
  end.

(** The value a binding of [qbind] writes for its slot, once [data] has
    passed the test [!data]: [v = refToVal(data, this.slot)], and ['']
    for [null] and [undefined]. *)
Definition qbind_value (data : bound) (slot : string) : completion value :=
  match refToVal data (RefString slot) with
  | Throw e => Throw e
  | Return None | Return (Some VNull) => Return (VStr EmptyString)
  | Return (Some v) => Return v
  end.

End Pathspec.

(** ** The store of data nodes *)

Abbreviation loc := positive.

(** What is handed to [_notify] and on to the subscribers. *)
#[warnings="-register-all"]
Inductive arg :=
| AType (type : string)                  (* the event type *)
| ANode (l : loc)                        (* a data node *)
| ASnapshot (d : gmap string value)      (* a snapshot of a Record *)
| AArray (items : list arg).             (* an array of arguments *)

(** The fields of the four kinds of node next to those of QDataNode. *)
Inductive payload :=
| PData (d : gmap string value)          (* QData: the snapshot [_data] *)
| PList (items : list loc)               (* QDataList: [_data], an array of nodes *)
| PDict (entries : gmap string loc)      (* QDataDict: [_data], nodes by key *)
| PTransformer                           (* QTransformer: *)
    (d : gmap string value)              (*   [_data], a plain mapping *)
    (base : loc)                         (*   [_base] *)
    (morph unmorph : gmap string value → gmap string value).

Record node {callback : Type} := Node {
  _subscribers : gmap string (list callback);
  _parents : list loc;
  _data : payload
}.
Arguments node callback : clear implicits.
Arguments Node {callback} _ _ _.

Abbreviation heap callback := (gmap loc (node callback)).

(** A method body: it runs on a state [S] and returns or throws; what it
    wrote before it threw stays written. *)
Definition Exec (S A : Type) : Type := S → S * completion A.

Section Exec.

Context {S : Type}.

Definition ret {A} (a : A) : Exec S A := λ s, (s, Return a).
Definition throw {A} (e : error) : Exec S A := λ s, (s, Throw e).
Definition bind {A B} (k : A → Exec S B) (m : Exec S A) : Exec S B :=
  λ s, match m s with
       | (s', Return a) => k a s'
       | (s', Throw e) => (s', Throw e)
       end.

#[global] Instance Exec_ret : MRet (Exec S) := @ret.
#[global] Instance Exec_bind : MBind (Exec S) := @bind.

(** [$.each(l, f)] over an array: in order, until one call throws. *)
Fixpoint each {A} (l : list A) (f : A → Exec S unit) : Exec S unit :=
  match l with
  | [] => ret ()
  | x :: l' => f x ;; each l' f
  end.

(** The state a call leaves behind, and how the call ended. *)
Definition state_after {A} (m : Exec S A) (s : S) : S := fst (m s).
Definition outcome {A} (m : Exec S A) (s : S) : completion A := snd (m s).

End Exec.

(** The methods of the data nodes run on the store. *)
Abbreviation M callback := (Exec (heap callback)).

Section Store.

Context {callback : Type}.

(** Reading a property of an object that is not there is a [TypeError]. *)
Definition read (l : loc) : M callback (node callback) :=
  λ h, match h !! l with
       | Some n => (h, Return n)
       | None => (h, Throw TypeError)
       end.

Definition write (l : loc) (f : node callback → node callback) : M callback unit :=
  λ h, match h !! l with
       | Some n => (<[l := f n]> h, Return ())
       | None => (h, Throw TypeError)
       end.

Definition set_subscribers (s : gmap string (list callback))
    (n : node callback) : node callback :=
  Node s (_parents n) (_data n).
Definition set_parents (p : list loc) (n : node callback) : node callback :=
  Node (_subscribers n) p (_data n).
Definition set_data (d : payload) (n : node callback) : node callback :=
  Node (_subscribers n) (_parents n) d.

(** [new]: the object is stored at a location not yet in use. *)
Definition alloc (n : node callback) : M callback loc :=
  λ h, let l := fresh (dom h) in (<[l := n]> h, Return l).

End Store.

(** ** QPubSub *)

Module QPubSub.
Section QPubSub.

Context {callback : Type} `{EqDecision callback}.

(** How a subscriber runs when it is called with a list of arguments. *)
Variable invoke : callback → list arg → M callback unit.

(** [on(type, cb)] *)
Definition on (this : loc) (type : string) (cb : callback) : M callback loc :=
  n ← read this;
  let subs := default [] (_subscribers n !! type) in
  write this (set_subscribers (<[type := subs ++ [cb]]> (_subscribers n)));;
  mret this.

(** [off(type, cb)]: [this._subscribers[type].filter(...)], a [TypeError]
    when nothing was ever subscribed under [type]. *)
Definition off (this : loc) (type : string) (cb : callback) : M callback unit :=
  n ← read this;
  match _subscribers n !! type with
  | None => throw TypeError
  | Some subs =>
      write this (set_subscribers
        (<[type := filter (λ v, v ≠ cb) subs]> (_subscribers n)))
  end.

(** The two array-like objects of [_notify]: the [arguments] object of a
    call, and a true array. *)
Inductive array_like :=
| Arguments_object (items : list arg)
| Array_object (items : list arg).

(** [o.slice]: a method of [Array.prototype]; an [arguments] object
    inherits from [Object.prototype] and has none. *)
Definition slice_of (o : array_like) : option (nat → list arg) :=
  match o with
  | Array_object items => Some (λ n, drop n items)
  | Arguments_object _ => None
  end.

(** [o.slice(n)]; calling a property that is [undefined] is a [TypeError]. *)
Definition call_slice (o : array_like) (n : nat) : M callback (list arg) :=
  match slice_of o with
  | Some slice => mret (slice n)
  | None => throw TypeError
  end.

(** [_notify(type, ...)]: [rest] are the arguments after [type].
    [$.each] over [undefined] visits nothing. *)
Definition _notify (this : loc) (type : string) (rest : list arg) : M callback unit :=
  args ← call_slice (Arguments_object (AType type :: rest)) 1;
  n ← read this;
  each (default [] (_subscribers n !! type))
       (λ sub, invoke sub [ANode this; AArray args]).

End QPubSub.
End QPubSub.

(** ** QDataNode *)

Module QDataNode.
Section QDataNode.

Context {callback : Type}.

(** [_addParent(obj)] *)
Definition _addParent (this obj : loc) : M callback unit :=
  n ← read this;
  write this (set_parents (_parents n ++ [obj])).

(** [_removeParent(obj)] *)
Definition _removeParent (this obj : loc) : M callback unit :=
  n ← read this;
  write this (set_parents (filter (λ v, v ≠ obj) (_parents n))).

End QDataNode.
End QDataNode.

(** ** QDataList *)

Module QDataList.
Section QDataList.

Context {callback : Type} `{EqDecision callback}.
Variable invoke : callback → list arg → M callback unit.

(** [this._data] of a list; a node of another kind has no such method. *)
Definition items (this : loc) : M callback (list loc) :=
  n ← read this;
  match _data n with
  | PList l => mret l
  | _ => throw TypeError
  end.

(** [new QDataList(list)] *)
Definition new (list : list loc) : M callback loc :=
  self ← alloc (Node ∅ [] (PList list));
  each list (λ v, QDataNode._addParent v self);;
  mret self.

(** [add(elem)] *)
Definition add (this elem : loc) : M callback loc :=
  l ← items this;
  write this (set_data (PList (l ++ [elem])));;
  QDataNode._addParent elem this;;
  QPubSub._notify invoke this "add" [ANode elem];;
  mret this.

(** [remove(elem)] *)
Definition remove (this elem : loc) : M callback loc :=
  l ← items this;
  let prevLength := length l in
  let l' := filter (λ v, v ≠ elem) l in
  write this (set_data (PList l'));;
  if decide (length l' = prevLength) then
    throw (Error "Attempted to remove QDataObject from a collection it wasn't a member of")
  else
    QDataNode._removeParent elem this;;
    QPubSub._notify invoke this "remove" [ANode elem];;
    mret this.

(** [get(idx)]; [None] is [undefined]. *)
Definition get (this : loc) (idx : nat) : M callback (option loc) :=
  l ← items this;
  mret (l !! idx).

(** [_childChanged(child, old, source)] *)
Definition _childChanged (this child : loc) (old : gmap string value)
    (source : option string) : M callback unit :=
  let source := default "data" source in
  QPubSub._notify invoke this ("change." +:+ source) [ANode child; ASnapshot old].

End QDataList.
End QDataList.

(** ** QDataDict *)

Module QDataDict.
Section QDataDict.

Context {callback : Type} `{EqDecision callback}.
Variable invoke : callback → list arg → M callback unit.

(** [this._data] of a dictionary. *)
Definition entries (this : loc) : M callback (gmap string loc) :=
  n ← read this;
  match _data n with
  | PDict m => mret m
  | _ => throw TypeError
  end.

(** [new QDataDict(data)] *)
Definition new (data : gmap string loc) : M callback loc :=
  self ← alloc (Node ∅ [] (PDict data));
  each (map_to_list data).*2 (λ v, QDataNode._addParent v self);;
  mret self.

(** [add(key, elem)]; the early [return;] returns [undefined], [None]. *)
Definition add (this : loc) (key : string) (elem : loc) : M callback (option loc) :=
  m ← entries this;
  match m !! key with
  | Some v =>
      if decide (v = elem) then mret None
      else throw (Error "Attempted to add new key to QDataDict that already existed")
  | None =>
      write this (set_data (PDict (<[key := elem]> m)));;
      QDataNode._addParent elem this;;
      QPubSub._notify invoke this "add" [ANode elem];;
      mret (Some this)
  end.

(** [removeKey(key)] *)
Definition removeKey (this : loc) (key : string) : M callback loc :=
  m ← entries this;
  match m !! key with
  | None =>
      throw (Error "Attempted to remove key from QDataDict that didn't actually exist")
  | Some elem =>
      write this (set_data (PDict (delete key m)));;
      QDataNode._removeParent elem this;;
      QPubSub._notify invoke this "remove" [ANode elem];;
      mret this
  end.

(** [_childChanged(child, old)] *)
Definition _childChanged (this child : loc) (old : gmap string value) : M callback unit :=
  QPubSub._notify invoke this "change" [ANode child; ASnapshot old].

End QDataDict.
End QDataDict.

(** ** QData *)

Module QData.

(** [QDeleteThis()], by the binding of [this] in the call; [None] is
    [undefined].  The file is strict code, so a plain call binds no [this]. *)
Definition QDeleteThis (this : this_binding) : option value :=
  match this with
  | ThisWindow => Some VDelete      (* return new QDeleteThis() *)
  | ThisFresh => Some VDelete       (* the instance under construction *)
  | ThisUndefined => None           (* falls through *)
  | ThisReceiver => None            (* falls through *)
  end.

(** The local function [apply(o, d)] of [set]: [$.each] over the entries
    of a mapping [d], or over the elements of an array [d] by index; over
    [null] and over a delete marker it visits nothing.  [visit] is the
    function handed to [$.each]. *)
Fixpoint apply (o : gmap string value) (d : value) {struct d} : gmap string value :=
  let visit := λ (k : string) (v : value) (o : gmap string value),
        if instanceof_QDeleteThis v then delete k o
        else if bool_decide (typeof v ≠ "object") then <[k := v]> o
        else <[k := VObj (apply (extend (o !! k)) v)]> o in
  match d with
  | VObj m => map_fold visit o m
  | VArr l =>
      (fix each_index (i : nat) (l : list value) (o : gmap string value) :=
         match l with
         | [] => o
         | v :: l' => each_index (S i) l' (visit (pretty i) v o)
         end) 0 l o
  | _ => o
  end.

Section QData.

Context {callback : Type} `{EqDecision callback}.
Variable invoke : callback → list arg → M callback unit.

(** [new QData(data)] *)
Definition new (data : gmap string value) : M callback loc :=
  alloc (Node ∅ [] (PData data)).

(** [this._data] of a Record. *)
Definition snapshot (this : loc) : M callback (gmap string value) :=
  n ← read this;
  match _data n with
  | PData d => mret d
  | _ => throw TypeError
  end.

(** [p._childChanged(child, old)], by the kind of the parent [p]. *)
Definition _childChanged (p child : loc) (old : gmap string value) : M callback unit :=
  n ← read p;
  match _data n with
  | PList _ => QDataList._childChanged invoke p child old None
  | PDict _ => QDataDict._childChanged invoke p child old
  | PData _ | PTransformer _ _ _ _ => throw TypeError
  end.

(** [QDataNode._changed(old)] *)
Definition _changed (this : loc) (old : gmap string value) : M callback unit :=
  n ← read this;
  each (_parents n) (λ p, _childChanged p this old).

(** [set(data)]: [this._data] becomes a copy of itself, [apply] works on
    the copy, then the subscribers and the parents are told. *)
Definition set (this : loc) (data : gmap string value) : M callback loc :=
  old ← snapshot this;
  write this (set_data (PData (extend (Some (VObj old)))));;
  o ← snapshot this;
  write this (set_data (PData (apply o (VObj data))));;
  QPubSub._notify invoke this "change" [ASnapshot old];;
  _changed this old;;
  mret this.

(** [data()] *)
Definition data (this : loc) : M callback (gmap string value) :=
  snapshot this.

End QData.
End QData.

(** ** QTransformer *)

Module QTransformer.
Section QTransformer.

Context {callback : Type} `{EqDecision callback}.

(** The closure of the constructor over [self] that is subscribed to
    the base: [function(_self, old) { self.morph(); }]. *)
Variable morph_handler : loc → callback.

(** [morph()] and [unmorph()]: the bodies are empty. *)
Definition morph (this : loc) : M callback unit := mret ().
Definition unmorph (this : loc) : M callback unit := mret ().

(** [new QTransformer(opts)].  [this._data] is the plain mapping [{}],
    which has no method [on]: the second subscription, of the closure
    that calls [self.unmorph()], is a [TypeError]. *)
Definition new (base : loc)
    (morph unmorph : gmap string value → gmap string value) : M callback loc :=
  self ← alloc (Node ∅ [] (PTransformer ∅ base morph unmorph));
  QPubSub.on base "change" (morph_handler self);;
  throw TypeError.

(** [this._data] of a transformer, the derived mapping. *)
Definition derived (this : loc) : M callback (gmap string value) :=
  n ← read this;
  match _data n with
  | PTransformer d _ _ _ => mret d
  | _ => throw TypeError
  end.

End QTransformer.
End QTransformer.

(** ** QWidgetGroup *)

Module QWidgetGroup.

(** [Math.round(n / 2)]: halves round towards plus infinity. *)
Definition round_half (n : Z) : Z := (n + 1) / 2.

(** [a.splice(start, 0, x)] *)
Definition splice {A} (a : list A) (start : Z) (x : A) : list A :=
  let len := Z.of_nat (length a) in
  let start := if decide (start < 0)%Z then Z.max (len + start) 0 else Z.min start len in
  take (Z.to_nat start) a ++ x :: drop (Z.to_nat start) a.

(** [a[key]] for an array [a] and a property key: the element at the index
    the key spells.  The keys of an array that are not indices ([length]
    and the inherited methods) are not modelled. *)
Fixpoint array_get_from {A} (i : nat) (a : list A) (key : string) : option A :=
  match a with
  | [] => None
  | x :: a' => if decide (pretty i = key) then Some x else array_get_from (S i) a' key
  end.
Definition array_get {A} (a : list A) (key : string) : option A :=
  array_get_from 0 a key.

(** The index a property key spells in an array, if any. *)
Fixpoint array_index_from {A} (i : nat) (a : list A) (key : string) : option nat :=
  match a with
  | [] => None
  | x :: a' => if decide (pretty i = key) then Some i else array_index_from (S i) a' key
  end.

Section QWidgetGroup.

(** The children of the observed collection; [idField_of c] is the
    property key that [c[self._idField]] spells. *)
Context {child : Type} `{EqDecision child}.
Variable idField_of : child → string.

(** A widget made by [new type(gen)]: an object with an identity of its
    own, for the child it was generated from.  Its element [$e] is named
    by the identity of the widget. *)
Record QWidget := Widget { identity : nat; shown : child }.

#[global] Instance QWidget_eq_dec : EqDecision QWidget.
Proof. solve_decision. Defined.

Definition element (qw : QWidget) : nat := identity qw.

Record group := Group {
  _children : list QWidget;
  _childrenMap : gmap string QWidget;
  _comparator : QWidget → QWidget → Z;
  c_children : list nat;     (* [this.$c.children()], the rendered elements *)
  constructed : nat          (* the widgets constructed so far *)
}.

(** [this.$c.length]: the container selection holds the one container. *)
Definition c_length : Z := 1.

(** [_insertWidget(qw, l, r)] on the array [this._children]; the result
    is the new array and the returned index.  Each recursive call costs
    one unit of [fuel]. *)
Fixpoint _insertWidget_between (fuel : nat) (comparator : QWidget → QWidget → Z)
    (qw : QWidget) (l r : Z) (children : list QWidget)
    : option (list QWidget * completion Z) :=
  match fuel with
  | O => None
  | S fuel' =>
      if decide (r - l = 1)%Z then
        if decide (r = 0 ∨ r = Z.of_nat (length children))%Z then
          Some (children ++ [qw], Return 0%Z)
        else
          Some (splice children r qw, Return r)
      else
        let pivot := round_half (l + r) in
        match (if decide (0 ≤ pivot)%Z then children !! Z.to_nat pivot else None) with
        | None => Some (children, Throw TypeError)
        | Some at_pivot =>
            let cmp := comparator qw at_pivot in
            if decide (cmp = 0)%Z then Some (splice children pivot qw, Return pivot)
            else if decide (cmp < 0)%Z then
              _insertWidget_between fuel' comparator qw l pivot children
            else
              _insertWidget_between fuel' comparator qw pivot r children
        end
  end.

(** [_insertWidget(qw)]: [l] and [r] are [undefined] and become [-1] and
    the length; the width [r - l] bounds the depth of the recursion. *)
Definition _insertWidget (comparator : QWidget → QWidget → Z) (qw : QWidget)
    (children : list QWidget) : option (list QWidget * completion Z) :=
  _insertWidget_between (S (length children)) comparator qw
    (-1) (Z.of_nat (length children)) children.

(** [this.$c.children().eq(idx)]: the position of the element, if there is
    one; a negative [idx] counts from the end. *)
Definition eq_position (rendered : list nat) (idx : Z) : option nat :=
  let len := Z.of_nat (length rendered) in
  let i := if decide (idx < 0)%Z then (len + idx)%Z else idx in
  if decide (0 ≤ i < len)%Z then Some (Z.to_nat i) else None.

(** [_insertElem(elem, idx)] on the rendered elements.  [insertBefore] on an
    empty selection inserts nothing. *)
Definition _insertElem (elem : nat) (idx : Z) (rendered : list nat) : list nat :=
  if decide (c_length = idx) then rendered ++ [elem]
  else match eq_position rendered idx with
       | Some i => take i rendered ++ elem :: drop i rendered
       | None => rendered
       end.

(** [_removeWidget(qw)] *)
Definition _removeWidget (qw : QWidget) (children : list QWidget) : list QWidget :=
  filter (λ e, e ≠ qw) children.

(** [this._addHandler(_d, newChild)], called with [this] bound as [this].
    The widget is [new type(gen)]; the emitter [_d] is only handed on to
    it.  [this._insertWidget] is read off [this], all the rest off [self]. *)
Definition _addHandler (this : this_binding) (newChild : child) : Exec group unit :=
  λ g,
    let qw := Widget (constructed g) newChild in
    let g := Group (_children g) (<[idField_of newChild := qw]> (_childrenMap g))
                   (_comparator g) (c_children g) (S (constructed g)) in
    match this with
    | ThisReceiver =>
        match _insertWidget (_comparator g) qw (_children g) with
        | Some (children, Return idx) =>
            (Group children (_childrenMap g) (_comparator g)
                   (_insertElem (element qw) idx (c_children g)) (constructed g),
             Return ())
        | Some (children, Throw e) =>
            (Group children (_childrenMap g) (_comparator g)
                   (c_children g) (constructed g), Throw e)
        | None => (g, Throw (Error "too much recursion"))
        end
    | _ => (g, Throw TypeError)
    end.

(** [this._removeHandler(_d, chld)].  The widget is looked up in the array
    [self._children]; [qw.remove()] takes its element out of the document;
    [delete] leaves a hole in the array that [filter] then skips. *)
Definition _removeHandler (chld : child) : Exec group unit :=
  λ g,
    match array_get (_children g) (idField_of chld) with
    | None =>
        (g, Throw (Error "Tried to remove non-existent widget from QWidgetFactory"))
    | Some qw =>
        let rendered := filter (λ e, e ≠ element qw) (c_children g) in
        let holed :=
          match array_index_from 0 (_children g) (idField_of chld) with
          | Some i => delete i (_children g)
          | None => _children g
          end in
        (Group (_removeWidget qw holed) (_childrenMap g) (_comparator g)
               rendered (constructed g), Return ())
    end.

End QWidgetGroup.

Arguments QWidget child : clear implicits.
Arguments group child : clear implicits.

End QWidgetGroup.

(** ** The deep merge of the specification *)

(** The merge as the specification words it: every key of the patch is
    overwritten, recursively merged when both sides are nested mappings,
    and the other keys of the prior snapshot are unchanged. *)
Fixpoint deep_merge (prior : gmap string value) (p : value) {struct p}
    : gmap string value :=
  match p with
  | VObj pm =>
      map_fold (λ k v acc,
        match v, prior !! k with
        | VObj _, Some (VObj om) => <[k := VObj (deep_merge om v)]> acc
        | _, _ => <[k := v]> acc
        end) prior pm
  | _ => prior
  end.

(** ** Shapes of patches and snapshots *)

(** Every entry of a mapping passes the test [f]. *)
Definition map_all {A} (f : string → A → bool) (m : gmap string A) : bool :=
  map_fold (λ k v b, f k v && b) true m.

(** The patch holds no delete marker, at any depth. *)
Fixpoint no_delete_markers (p : value) : bool :=
  match p with
  | VDelete => false
  | VArr l => forallb no_delete_markers l
  | VObj m => map_all (λ _ v, no_delete_markers v) m
  | _ => true
  end.

(** The patch holds, at any depth, only strings, numbers, booleans and
    nested mappings: no delete marker, no [null] and no array. *)
Fixpoint plain (p : value) : bool :=
  match p with
  | VBool _ | VNum _ | VStr _ => true
  | VObj m => map_all (λ _ v, plain v) m
  | VNull | VDelete | VArr _ => false
  end.

(** Every nested mapping of the patch meets a mapping, a number, a
    boolean, [null] or no value in the prior snapshot: none is to be
    merged over a string or an array. *)
Fixpoint merges_into_mappings (prior : gmap string value) (p : value) : bool :=
  match p with
  | VObj m =>
      map_all (λ k v,
        match v, prior !! k with
        | VObj _, Some (VStr _) => false
        | VObj _, Some (VArr _) => false
        | VObj _, Some (VObj om) => merges_into_mappings om v
        | _, _ => true
        end) m
  | _ => true
  end.

(** The mapping reached from [m] along the keys [ks]. *)
Fixpoint descend (ks : list string) (m : gmap string value) : option (gmap string value) :=
  match ks with
  | [] => Some m
  | k :: ks' =>
      match m !! k with
      | Some (VObj m') => descend ks' m'
      | _ => None
      end
  end.

(** What one step of [apply] leaves under a key that held [cur], for the
    patch value [v]; [None] is an absent key. *)
Definition entry (v : value) (cur : option value) : option value :=
  if instanceof_QDeleteThis v then None
  else if bool_decide (typeof v ≠ "object") then Some v
  else Some (VObj (QData.apply (extend cur) v)).

(** The nesting of a value, for induction. *)
Fixpoint size_of (v : value) : nat :=
  match v with
  | VObj m => S (map_fold (λ _ v n, size_of v + n) 0 m)
  | VArr l => S (foldr (λ v n, size_of v + n) 0 l)
  | _ => 0
  end.

(** What the deep merge leaves under a key that held [cur], for the patch
    value [v]. *)
Definition merged (v : value) (cur : option value) : value :=
  match v, cur with
  | VObj _, Some (VObj om) => VObj (deep_merge om v)
  | _, _ => v
  end.

(** ** Concrete inputs *)

Module Examples.

(** A program without subscribers. *)
Definition no_callbacks : Empty_set → list arg → M Empty_set unit :=
  λ cb _, match cb with end.

(** The store after [new QData(d)]; the Record is at location 1. *)
Definition record (d : gmap string value) : heap Empty_set :=
  state_after (QData.new d) ∅.

Definition title_amount : gmap string value :=
  {[ "title" := VStr "A"; "amount" := VNum 2 ]}.
Definition title_remark : gmap string value :=
  {[ "title" := VStr "A"; "remark" := VStr "x" ]}.
Definition title_meta : gmap string value :=
  {[ "title" := VStr "A";
     "meta" := VObj {[ "remark" := VStr "x"; "by" := VStr "me" ]} ]}.

(** [x = new QData({}); c = new QDataList([x])]: [x] is at 1, [c] at 2. *)
Definition list_of_one : heap Empty_set :=
  state_after (x ← QData.new ∅; QDataList.new [x]) ∅.

(** [x = new QData({}); y = new QData({}); c = new QDataList([x])]:
    [x] is at 1, [y] at 2, [c] at 3. *)
Definition list_and_stranger : heap Empty_set :=
  state_after (x ← QData.new ∅; QData.new ∅;; QDataList.new [x]) ∅.

(** [x = new QData({}); y = new QData({}); d = new QDataDict()]:
    [x] is at 1, [y] at 2, [d] at 3. *)
Definition empty_dict : heap Empty_set :=
  state_after (QData.new ∅;; QData.new ∅;; QDataDict.new ∅) ∅.

(** The two closures a transformer subscribes, and how they run. *)
Inductive closure :=
| Morph (self : loc)
| Unmorph (self : loc).

#[global] Instance closure_eq_dec : EqDecision closure.
Proof. solve_decision. Defined.

Definition run_closure (cb : closure) (args : list arg) : M closure unit :=
  match cb with
  | Morph self => QTransformer.morph self
  | Unmorph self => QTransformer.unmorph self
  end.

(** [c => ({fahrenheit: c*9/5+32})] and [f => ({celsius: (f-32)*5/9})],
    on the snapshots that carry the field. *)
Definition to_fahrenheit (d : gmap string value) : gmap string value :=
  match d !! "celsius" with
  | Some (VNum c) => {[ "fahrenheit" := VNum (c * 9 / 5 + 32) ]}
  | _ => ∅
  end.
Definition to_celsius (d : gmap string value) : gmap string value :=
  match d !! "fahrenheit" with
  | Some (VNum f) => {[ "celsius" := VNum ((f - 32) * 5 / 9) ]}
  | _ => ∅
  end.

(** [base = new QData({celsius: 0});
     new QTransformer({base: base, morph: ..., unmorph: ...})]:
    the base is at 1, the transformer under construction at 2. *)
Definition thermometer : Exec (heap closure) loc :=
  base ← QData.new {[ "celsius" := VNum 0 ]};
  QTransformer.new Morph base to_fahrenheit to_celsius.

(** A comparator ascending by key, on widgets for children that are
    their own key. *)
Definition by_key (a b : QWidgetGroup.QWidget Z) : Z :=
  (QWidgetGroup.shown a - QWidgetGroup.shown b)%Z.

(** A group that has rendered nothing yet. *)
Definition empty_group {child} (comparator : QWidgetGroup.QWidget child →
    QWidgetGroup.QWidget child → Z) : QWidgetGroup.group child :=
  QWidgetGroup.Group [] ∅ comparator [] 0.

(** The group after the [add] event of the child with id ["a"]. *)
Definition group_of_a : QWidgetGroup.group string :=
  state_after (QWidgetGroup._addHandler id ThisReceiver "a")
    (empty_group (λ _ _, 0%Z)).

(** The ascending group after the [add] events of the children 2 and 1. *)
Definition group_of_2 : QWidgetGroup.group Z :=
  state_after (QWidgetGroup._addHandler pretty ThisReceiver 2%Z)
    (empty_group by_key).
Definition group_of_2_1 : QWidgetGroup.group Z :=
  state_after (QWidgetGroup._addHandler pretty ThisReceiver 1%Z) group_of_2.

End Examples.

(** ** Paths, links and orders *)

(** The keys of a path joined by dots, [p.join('.')]. *)
Fixpoint join_dots (p : list string) : string :=
  match p with
  | [] => EmptyString
  | [key] => key
  | key :: p' => key +:+ "." +:+ join_dots p'
  end.

(** The key holds no dot. *)
Fixpoint dot_free (key : string) : bool :=
  match key with
  | EmptyString => true
  | String c key' => if decide (c = "."%char) then false else dot_free key'
  end.

(** The value at the end of a path, key by key. *)
Fixpoint path_value (v : value) (p : list string) : completion (option value) :=
  match p with
  | [] => Return (Some v)
  | key :: p' =>
      match Pathspec.get_property v key with
      | Throw e => Throw e
      | Return None => Return None
      | Return (Some next) => path_value next p'
      end
  end.

(** The links between the lists of the store and their members: a node
    is a member of a list exactly when it has the list among its parents. *)
Definition linked {callback} (h : heap callback) : Prop :=
  ∀ c n l x, h !! c = Some n → _data n = PList l →
    (x ∈ l ↔ ∃ nx, h !! x = Some nx ∧ c ∈ _parents nx).

(** The order of widgets by a key. *)
Definition by_key_le {child} (key : QWidgetGroup.QWidget child → Z)
    (a b : QWidgetGroup.QWidget child) : Prop :=
  (key a ≤ key b)%Z.

(** ** Further concrete inputs *)

Module Scenarios.

Import Examples.

(** [new QData({celsius: 0})] in a program whose subscribers are the
    closures of a transformer; the Record is at location 1. *)
Definition watched : heap closure :=
  state_after (QData.new {[ "celsius" := VNum 0 ]}) ∅.

(** [d.add("a", x); d.add("b", x)] on the empty dictionary: [x] is at 1
    and [d] at 3. *)
Definition dict_shared : heap Empty_set :=
  state_after (QDataDict.add no_callbacks 3%positive "b" 1%positive)
    (state_after (QDataDict.add no_callbacks 3%positive "a" 1%positive) empty_dict).

(** The widgets with the keys 1 and 3, in order. *)
Definition widgets_1_3 : list (QWidgetGroup.QWidget Z) :=
  [QWidgetGroup.Widget 0 1%Z; QWidgetGroup.Widget 1 3%Z].

End Scenarios.

(** * Properties *)

(** ** Running a method body *)

Section Exec_lemmas.

Context {S : Type}.

Lemma bind_run {A B} (m : Exec S A) (k : A → Exec S B) s :
  (m ≫= k) s =
  match m s with
  | (s', Return a) => k a s'
  | (s', Throw e) => (s', Throw e)
  end.
Proof. reflexivity. Qed.

Lemma bind_Return {A B} (m : Exec S A) (k : A → Exec S B) s s' a :
  m s = (s', Return a) → (m ≫= k) s = k a s'.
Proof. intros Hm. by rewrite bind_run, Hm. Qed.

Lemma bind_Throw {A B} (m : Exec S A) (k : A → Exec S B) s s' e :
  m s = (s', Throw e) → (m ≫= k) s = (s', Throw e).
Proof. intros Hm. by rewrite bind_run, Hm. Qed.

End Exec_lemmas.

Section Store_lemmas.

Context {callback : Type}.

Lemma read_Some (h : heap callback) l n :
  h !! l = Some n → read l h = (h, Return n).
Proof. intros Hl. unfold read. by rewrite Hl. Qed.

Lemma write_Some (h : heap callback) l n f :
  h !! l = Some n → write l f h = (<[l := f n]> h, Return ()).
Proof. intros Hl. unfold write. by rewrite Hl. Qed.

Lemma set_data_same (n : node callback) d : _data n = d → set_data d n = n.
Proof. intros <-. by destruct n. Qed.

(** Writing the parents of [x] keeps the data of every node. *)
Lemma parents_update (h : heap callback) c x n nx d ps :
  h !! c = Some n → _data n = d → h !! x = Some nx →
  ∃ n2 nx2, <[x := set_parents ps nx]> h !! c = Some n2 ∧ _data n2 = d ∧
            <[x := set_parents ps nx]> h !! x = Some nx2 ∧ _parents nx2 = ps.
Proof.
  intros Hc Hd Hx. destruct (decide (x = c)) as [->|Hne].
  - rewrite lookup_insert_eq. assert (nx = n) as -> by congruence.
    by exists (set_parents ps n), (set_parents ps n).
  - exists n, (set_parents ps nx). by rewrite lookup_insert_ne, lookup_insert_eq.
Qed.

(** Writing the data of [c] keeps the parents of every node. *)
Lemma data_update (h : heap callback) c x n nx d :
  h !! c = Some n → h !! x = Some nx →
  ∃ nx1, <[c := set_data d n]> h !! x = Some nx1 ∧ _parents nx1 = _parents nx.
Proof.
  intros Hc Hx. destruct (decide (c = x)) as [->|Hne].
  - rewrite lookup_insert_eq. assert (nx = n) as -> by congruence. by eexists.
  - exists nx. by rewrite lookup_insert_ne.
Qed.

End Store_lemmas.

(** ** Mappings and nested values *)

Lemma map_all_spec {A} (f : string → A → bool) (m : gmap string A) :
  map_all f m = true ↔ ∀ k v, m !! k = Some v → f k v = true.
Proof.
  unfold map_all.
  apply (map_fold_weak_ind
    (λ r m, r = true ↔ ∀ k v, m !! k = Some v → f k v = true)).
  - split; [|done]. intros _ k v Hk. by rewrite lookup_empty in Hk.
  - intros i x m' r Hi IH. rewrite andb_true_iff, IH. split.
    + intros [Hx Hm] k v Hk. destruct (decide (i = k)) as [->|Hne].
      * rewrite lookup_insert_eq in Hk. by injection Hk as <-.
      * rewrite lookup_insert_ne in Hk by done. eauto.
    + intros Hall. split.
      * apply Hall. by rewrite lookup_insert_eq.
      * intros k v Hk. apply Hall. rewrite lookup_insert_ne; [done|].
        intros ->. congruence.
Qed.

Lemma size_of_entry (m : gmap string value) k v :
  m !! k = Some v → size_of v < size_of (VObj m).
Proof.
  simpl. revert k v.
  apply (map_fold_weak_ind (λ r m, ∀ k v, m !! k = Some v → size_of v < S r)).
  - intros k v Hk. by rewrite lookup_empty in Hk.
  - intros i x m' r Hi IH k v Hk.
    destruct (decide (i = k)) as [->|Hne].
    + rewrite lookup_insert_eq in Hk. injection Hk as ->. lia.
    + rewrite lookup_insert_ne in Hk by done. specialize (IH _ _ Hk). lia.
Qed.

Lemma size_of_item (l : list value) v :
  v ∈ l → size_of v < size_of (VArr l).
Proof.
  cbn [size_of]. induction 1 as [v l|v w l _ IH]; cbn [foldr]; lia.
Qed.

(** Induction on a value with the hypothesis for every element of an
    array and every entry of a mapping. *)
Lemma value_nested_ind (P : value → Prop) :
  P VNull → (∀ b, P (VBool b)) → (∀ n, P (VNum n)) → (∀ s, P (VStr s)) →
  P VDelete →
  (∀ l, (∀ v, v ∈ l → P v) → P (VArr l)) →
  (∀ m, (∀ k v, m !! k = Some v → P v) → P (VObj m)) →
  ∀ v, P v.
Proof.
  intros HN HB HZ HS HD HA HO v.
  remember (size_of v) as n eqn:Hn. revert v Hn.
  induction n as [n IH] using lt_wf_ind. intros v ->.
  destruct v; auto.
  - apply HA. intros v Hv. eapply IH; [|reflexivity]. by apply size_of_item.
  - apply HO. intros k v Hk. eapply IH; [|reflexivity].
    by eapply size_of_entry.
Qed.

(** [apply], key by key: the entries of the patch are worked off one by
    one, each on the value its key held before the call. *)
Lemma apply_lookup (m o : gmap string value) k :
  QData.apply o (VObj m) !! k =
  match m !! k with
  | Some v => entry v (o !! k)
  | None => o !! k
  end.
Proof.
  simpl. revert k.
  apply (map_fold_weak_ind (λ r m, ∀ k, r !! k =
    match m !! k with Some v => entry v (o !! k) | None => o !! k end)).
  - intros k. by rewrite lookup_empty.
  - intros i x m' r Hi IH k.
    assert (r !! i = o !! i) as Hr by (by rewrite IH, Hi).
    destruct (decide (i = k)) as [->|Hne].
    + rewrite lookup_insert_eq. unfold entry. rewrite <- Hr.
      destruct (instanceof_QDeleteThis x); [by rewrite lookup_delete_eq|].
      destruct (bool_decide _); by rewrite lookup_insert_eq.
    + rewrite (lookup_insert_ne m') by done. rewrite <- IH.
      destruct (instanceof_QDeleteThis x); [by rewrite lookup_delete_ne|].
      destruct (bool_decide _); by rewrite lookup_insert_ne.
Qed.

(** The deep merge of the specification, key by key. *)
Lemma deep_merge_lookup (pm prior : gmap string value) k :
  deep_merge prior (VObj pm) !! k =
  match pm !! k with
  | Some v => Some (merged v (prior !! k))
  | None => prior !! k
  end.
Proof.
  simpl. revert k.
  apply (map_fold_weak_ind (λ r m, ∀ k, r !! k =
    match m !! k with
    | Some v => Some (merged v (prior !! k))
    | None => prior !! k
    end)).
  - intros k. by rewrite lookup_empty.
  - intros i x m' r Hi IH k.
    destruct (decide (i = k)) as [->|Hne].
    + rewrite lookup_insert_eq. unfold merged.
      destruct x; try by rewrite lookup_insert_eq.
      destruct (prior !! k) as [[]|]; by rewrite lookup_insert_eq.
    + rewrite (lookup_insert_ne m') by done. rewrite <- IH.
      destruct x; try by rewrite lookup_insert_ne.
      destruct (prior !! i) as [[]|]; by rewrite lookup_insert_ne.
Qed.

(** Merged into the empty mapping, a patch of scalars and mappings is
    copied. *)
Lemma apply_empty (p : value) :
  plain p = true → ∀ m, p = VObj m → QData.apply ∅ p = m.
Proof.
  induction p as [| | | | |l _|m IH] using value_nested_ind; try discriminate.
  intros Hp ? [= <-]. cbn [plain] in Hp.
  rewrite map_all_spec in Hp.
  apply map_eq. intros k. rewrite apply_lookup, lookup_empty.
  destruct (m !! k) as [v|] eqn:Hk; [|done].
  specialize (Hp _ _ Hk). specialize (IH _ _ Hk Hp).
  unfold entry. destruct v; try done.
  cbn [instanceof_QDeleteThis typeof extend].
  rewrite bool_decide_eq_false_2 by (intros ?; done).
  by rewrite (IH _ eq_refl).
Qed.

(** On such a patch [apply] is the deep merge, unless a mapping of the
    patch meets a string or an array. *)
Lemma apply_deep_merge (p : value) :
  ∀ old, plain p = true → merges_into_mappings old p = true →
  QData.apply old p = deep_merge old p.
Proof.
  induction p as [| | | | |l _|m IH] using value_nested_ind; try done.
  intros old Hp Hs. cbn [plain merges_into_mappings] in Hp, Hs.
  rewrite map_all_spec in Hp, Hs.
  apply map_eq. intros k. rewrite apply_lookup, deep_merge_lookup.
  destruct (m !! k) as [v|] eqn:Hk; [|done].
  specialize (Hp _ _ Hk). specialize (Hs _ _ Hk).
  specialize (IH _ _ Hk). unfold entry, merged.
  destruct v as [| | | | | |m']; try done.
  cbn [instanceof_QDeleteThis typeof].
  rewrite bool_decide_eq_false_2 by (intros ?; done).
  destruct (old !! k) as [[| | | | | |om]|]; try done; cbn [extend];
    try (by rewrite (apply_empty _ Hp _ eq_refl)).
  by rewrite IH.
Qed.

(** A delete marker below the keys [ks] of the patch takes its key out of
    the mapping below [ks] of the result. *)
Lemma apply_descend ks : ∀ old patch pm k,
  descend ks patch = Some pm → pm !! k = Some VDelete →
  ∃ level, descend ks (QData.apply old (VObj patch)) = Some level ∧
           level !! k = None.
Proof.
  induction ks as [|k1 ks IH]; intros old patch pm k Hpm Hk.
  - injection Hpm as <-. eexists. split; [reflexivity|].
    by rewrite apply_lookup, Hk.
  - cbn [descend] in *.
    destruct (patch !! k1) as [[| | | | | |p1]|] eqn:Hk1; try discriminate.
    rewrite apply_lookup, Hk1. unfold entry.
    cbn [instanceof_QDeleteThis typeof].
    rewrite bool_decide_eq_false_2 by (intros ?; done).
    by eapply IH.
Qed.

(** ** QPubSub and QData *)

Section Record_properties.

Context {callback : Type} `{EqDecision callback}.
Variable invoke : callback → list arg → M callback unit.

(** [arguments.slice] is not a function: [_notify] throws at once. *)
Lemma notify_run this type rest (h : heap callback) :
  QPubSub._notify invoke this type rest h = (h, Throw TypeError).
Proof. reflexivity. Qed.

(** C8 (the code departs from it).  Whatever the emitter, the event type
    and the arguments, [_notify] ends in a [TypeError] on [arguments.slice]
    and the store is as before: no subscriber has run, and with no
    subscriber for the event type the call fails all the same instead of
    doing nothing. *)
Theorem notify_fails_before_any_subscriber this type rest (h : heap callback) :
  outcome (QPubSub._notify invoke this type rest) h = Throw TypeError ∧
  state_after (QPubSub._notify invoke this type rest) h = h.
Proof. split; reflexivity. Qed.

Lemma snapshot_Some (h : heap callback) r n d :
  h !! r = Some n → _data n = PData d → QData.snapshot r h = (h, Return d).
Proof.
  intros Hr Hd. unfold QData.snapshot.
  erewrite bind_Return; [|by apply read_Some]. by rewrite Hd.
Qed.

Lemma data_inv (h : heap callback) r old :
  outcome (QData.data r) h = Return old →
  ∃ n, h !! r = Some n ∧ _data n = PData old.
Proof.
  unfold outcome, QData.data, QData.snapshot. rewrite bind_run. unfold read.
  destruct (h !! r) as [n|] eqn:Hr; [|discriminate].
  destruct (_data n) eqn:Hd; try discriminate.
  intros [= ->]. eauto.
Qed.

(** [set] writes the merged snapshot and then throws in [_notify]. *)
Lemma set_run (h : heap callback) r n old p :
  h !! r = Some n → _data n = PData old →
  QData.set invoke r p h =
    (<[r := set_data (PData (QData.apply old (VObj p))) n]> h, Throw TypeError).
Proof.
  intros Hr Hd. unfold QData.set.
  erewrite bind_Return; [|by eapply snapshot_Some].
  erewrite bind_Return; [|by apply write_Some].
  erewrite bind_Return;
    [|eapply snapshot_Some; [apply lookup_insert_eq|reflexivity]].
  erewrite bind_Return; [|apply write_Some, lookup_insert_eq].
  erewrite bind_Throw; [|apply notify_run].
  by rewrite insert_insert_eq.
Qed.

Lemma set_data_after (h : heap callback) r old p :
  outcome (QData.data r) h = Return old →
  outcome (QData.data r) (state_after (QData.set invoke r p) h)
    = Return (QData.apply old (VObj p)).
Proof.
  intros (n & Hr & Hd)%data_inv.
  unfold state_after, outcome. rewrite (set_run _ _ _ _ _ Hr Hd). cbn [fst].
  unfold QData.data. erewrite snapshot_Some; [done|apply lookup_insert_eq|done].
Qed.



(** C10 (as amended).  For every Record [r] and key [k], [r.set({k: null})]
    leaves under [k] a mapping and never [null]: a prior mapping as it
    was, the characters of a prior string and the elements of a prior
    array by their index, and the empty mapping for any other prior value
    and for an absent key.  The other keys are untouched. *)
Theorem set_null_stores_mapping (h : heap callback) r old k :
  outcome (QData.data r) h = Return old →
  ∃ new,
    outcome (QData.data r) (state_after (QData.set invoke r {[ k := VNull ]}) h)
      = Return new ∧
    new !! k = Some (VObj (extend (old !! k))) ∧
    (∀ k', k' ≠ k → new !! k' = old !! k') ∧
    (∀ om, old !! k = Some (VObj om) → new !! k = Some (VObj om)) ∧
    (∀ s, old !! k = Some (VStr s) → new !! k = Some (VObj (chars_from 0 s))) ∧
    (∀ l, old !! k = Some (VArr l) → new !! k = Some (VObj (items_from 0 l))) ∧
    ((∀ om, old !! k ≠ Some (VObj om)) → (∀ s, old !! k ≠ Some (VStr s)) →
     (∀ l, old !! k ≠ Some (VArr l)) →
       new !! k = Some (VObj ∅)).
Proof.
  intros Hold. exists (QData.apply old (VObj {[ k := VNull ]})).
  rewrite (set_data_after _ _ _ _ Hold).
  assert (QData.apply old (VObj {[k := VNull]}) !! k
          = Some (VObj (extend (old !! k)))) as Hk.
  { by rewrite apply_lookup, lookup_singleton_eq. }
  split; [done|]. split; [done|]. split; [|split; [|split; [|split]]].
  - intros k' Hne. by rewrite apply_lookup, lookup_singleton_ne.
  - intros om Hom. by rewrite Hk, Hom.
  - intros s Hs. by rewrite Hk, Hs.
  - intros l Hl. by rewrite Hk, Hl.
  - intros Hno Hns Hna. rewrite Hk. destruct (old !! k) as [[]|]; try done.
    + by destruct (Hns s).
    + by destruct (Hna items).
    + by destruct (Hno m).
Qed.

End Record_properties.

(** ** QDataList and QDataDict *)

Lemma filter_ne_id {A} `{EqDecision A} (x : A) (l : list A) :
  x ∉ l → filter (λ v, v ≠ x) l = l.
Proof.
  induction l as [|y l IH]; [done|]. intros Hx.
  apply not_elem_of_cons in Hx as [Hne Hx].
  rewrite filter_cons_True by done. by rewrite IH.
Qed.

Lemma filter_ne_not_elem {A} `{EqDecision A} (x : A) (l : list A) :
  x ∉ filter (λ v, v ≠ x) l.
Proof. rewrite list_elem_of_filter. by intros [Hne _]. Qed.

Section Collection_properties.

Context {callback : Type} `{EqDecision callback}.
Variable invoke : callback → list arg → M callback unit.

Lemma items_Some (h : heap callback) c n l :
  h !! c = Some n → _data n = PList l → QDataList.items c h = (h, Return l).
Proof.
  intros Hc Hd. unfold QDataList.items.
  erewrite bind_Return; [|by apply read_Some]. by rewrite Hd.
Qed.

Lemma items_inv (h : heap callback) c l :
  outcome (QDataList.items c) h = Return l →
  ∃ n, h !! c = Some n ∧ _data n = PList l.
Proof.
  unfold outcome, QDataList.items. rewrite bind_run. unfold read.
  destruct (h !! c) as [n|] eqn:Hc; [|discriminate].
  destruct (_data n) eqn:Hd; try discriminate.
  intros [= ->]. eauto.
Qed.

Lemma addParent_Some (h : heap callback) x c nx :
  h !! x = Some nx →
  QDataNode._addParent x c h
    = (<[x := set_parents (_parents nx ++ [c]) nx]> h, Return ()).
Proof.
  intros Hx. unfold QDataNode._addParent.
  erewrite bind_Return; [|by apply read_Some]. by apply write_Some.
Qed.

Lemma addParent_None (h : heap callback) x c :
  h !! x = None → QDataNode._addParent x c h = (h, Throw TypeError).
Proof.
  intros Hx. unfold QDataNode._addParent.
  erewrite bind_Throw; [done|]. unfold read. by rewrite Hx.
Qed.

Lemma removeParent_Some (h : heap callback) x c nx :
  h !! x = Some nx →
  QDataNode._removeParent x c h
    = (<[x := set_parents (filter (λ v, v ≠ c) (_parents nx)) nx]> h, Return ()).
Proof.
  intros Hx. unfold QDataNode._removeParent.
  erewrite bind_Return; [|by apply read_Some]. by apply write_Some.
Qed.

(** [add] appends, registers the parent and then throws in [_notify]. *)
Lemma add_effect (h : heap callback) c x n l nx :
  h !! c = Some n → _data n = PList l → h !! x = Some nx →
  ∃ h2 n2 nx2, QDataList.add invoke c x h = (h2, Throw TypeError) ∧
    h2 !! c = Some n2 ∧ _data n2 = PList (l ++ [x]) ∧
    h2 !! x = Some nx2 ∧ _parents nx2 = _parents nx ++ [c].
Proof.
  intros Hc Hd Hx. unfold QDataList.add.
  erewrite bind_Return; [|by eapply items_Some].
  erewrite bind_Return; [|by apply write_Some].
  destruct (data_update h c x n nx (PList (l ++ [x])) Hc Hx) as (nx1 & Hx1 & Hp1).
  erewrite bind_Return; [|by apply addParent_Some].
  erewrite bind_Throw; [|apply notify_run].
  edestruct (parents_update (<[c:=set_data (PList (l ++ [x])) n]> h) c x)
    as (n2 & nx2 & ? & ? & ? & ?); [apply lookup_insert_eq|reflexivity|exact Hx1|].
  eexists _, n2, nx2. split; [reflexivity|]. rewrite <- Hp1. eauto.
Qed.

(** [remove] of a member filters it out, deregisters the parent and then
    throws in [_notify]. *)
Lemma remove_effect (h : heap callback) c x n l nx :
  h !! c = Some n → _data n = PList l → h !! x = Some nx → x ∈ l →
  ∃ h2 n2 nx2, QDataList.remove invoke c x h = (h2, Throw TypeError) ∧
    h2 !! c = Some n2 ∧ _data n2 = PList (filter (λ v, v ≠ x) l) ∧
    h2 !! x = Some nx2 ∧ _parents nx2 = filter (λ v, v ≠ c) (_parents nx).
Proof.
  intros Hc Hd Hx Hin. unfold QDataList.remove.
  erewrite bind_Return; [|by eapply items_Some].
  erewrite bind_Return; [|by apply write_Some].
  destruct (decide _) as [Hlen|_].
  { pose proof (length_filter_lt (λ v, v ≠ x) l x Hin) as Hlt.
    exfalso. assert (¬ x ≠ x) as Hxx by (intros Hxx; by apply Hxx).
    specialize (Hlt Hxx). lia. }
  destruct (data_update h c x n nx (PList (filter (λ v, v ≠ x) l)) Hc Hx)
    as (nx1 & Hx1 & Hp1).
  erewrite bind_Return; [|by apply removeParent_Some].
  erewrite bind_Throw; [|apply notify_run].
  edestruct (parents_update (<[c:=set_data (PList (filter (λ v, v ≠ x) l)) n]> h) c x)
    as (n2 & nx2 & ? & ? & ? & ?); [apply lookup_insert_eq|reflexivity|exact Hx1|].
  eexists _, n2, nx2. split; [reflexivity|]. rewrite <- Hp1. eauto.
Qed.

Lemma remove_non_member (h : heap callback) c x l :
  outcome (QDataList.items c) h = Return l → x ∉ l →
  QDataList.remove invoke c x h =
    (h, Throw (Error
      "Attempted to remove QDataObject from a collection it wasn't a member of")).
Proof.
  intros (n & Hc & Hd)%items_inv Hx. unfold QDataList.remove.
  erewrite bind_Return; [|by eapply items_Some].
  erewrite bind_Return; [|by apply write_Some].
  rewrite (filter_ne_id _ _ Hx). rewrite decide_True by done.
  rewrite (set_data_same _ _ Hd). by rewrite insert_id.
Qed.

(** What [add(x)] and then [remove(x)] leave: the members other than [x],
    and [x] without the collection among its parents. *)
Lemma add_remove_effect (h : heap callback) c x l nx :
  outcome (QDataList.items c) h = Return l → h !! x = Some nx →
  ∃ nx2,
    outcome (QDataList.items c)
      (state_after (QDataList.remove invoke c x)
         (state_after (QDataList.add invoke c x) h))
      = Return (filter (λ v, v ≠ x) l) ∧
    state_after (QDataList.remove invoke c x)
      (state_after (QDataList.add invoke c x) h) !! x = Some nx2 ∧
    c ∉ _parents nx2.
Proof.
  intros (n & Hc & Hd)%items_inv Hx.
  destruct (add_effect h c x n l nx Hc Hd Hx)
    as (h1 & n1 & nx1 & Hadd & Hc1 & Hd1 & Hx1 & Hp1).
  assert (x ∈ l ++ [x]) as Hin by (apply elem_of_app; right; apply list_elem_of_singleton; done).
  destruct (remove_effect h1 c x n1 _ nx1 Hc1 Hd1 Hx1 Hin)
    as (h2 & n2 & nx2 & Hrem & Hc2 & Hd2 & Hx2 & Hp2).
  unfold state_after, outcome. rewrite Hadd. cbn [fst]. rewrite Hrem. cbn [fst].
  exists nx2. split; [|split; [done|]].
  - rewrite (items_Some _ _ _ _ Hc2 Hd2). cbn [snd].
    rewrite filter_app, filter_cons_False, filter_nil, app_nil_r; [done|].
    intros Hne. by apply Hne.
  - rewrite Hp2. apply filter_ne_not_elem.
Qed.

(** C6 (as amended).  For every OrderedCollection [c] with the members [l]
    and every node [x]:  if [x] is not a member, [c.remove(x)] throws the
    error of a non-member and leaves the store, hence the members, as
    they were, and [c.add(x)] then [c.remove(x)] leave the members [l]
    again, as many as before;  and whether [x] is a member or not,
    [c.add(x)] then [c.remove(x)] leave [x] without [c] among its
    parents. *)
Theorem remove_non_member_add_remove (h : heap callback) c x l nx :
  outcome (QDataList.items c) h = Return l →
  h !! x = Some nx →
  (x ∉ l →
     QDataList.remove invoke c x h =
       (h, Throw (Error
         "Attempted to remove QDataObject from a collection it wasn't a member of")) ∧
     ∃ l2,
       outcome (QDataList.items c)
         (state_after (QDataList.remove invoke c x)
            (state_after (QDataList.add invoke c x) h)) = Return l2 ∧
       l2 = l ∧ length l2 = length l) ∧
  (∃ nx2,
     state_after (QDataList.remove invoke c x)
       (state_after (QDataList.add invoke c x) h) !! x = Some nx2 ∧
     c ∉ _parents nx2).
Proof.
  intros Hl Hx.
  destruct (add_remove_effect h c x l nx Hl Hx) as (nx2 & Hitems & Hx2 & Hp).
  split; [|by exists nx2].
  intros Hnot. split; [by eapply remove_non_member|].
  exists l. rewrite Hitems. by rewrite (filter_ne_id _ _ Hnot).
Qed.

Lemma entries_Some (h : heap callback) d n m :
  h !! d = Some n → _data n = PDict m → QDataDict.entries d h = (h, Return m).
Proof.
  intros Hc Hd. unfold QDataDict.entries.
  erewrite bind_Return; [|by apply read_Some]. by rewrite Hd.
Qed.

Lemma entries_inv (h : heap callback) d m :
  outcome (QDataDict.entries d) h = Return m →
  ∃ n, h !! d = Some n ∧ _data n = PDict m.
Proof.
  unfold outcome, QDataDict.entries. rewrite bind_run. unfold read.
  destruct (h !! d) as [n|] eqn:Hc; [|discriminate].
  destruct (_data n) eqn:Hd; try discriminate.
  intros [= ->]. eauto.
Qed.

(** [add] on an occupied key: nothing for the same element, the error of
    a duplicate key for another. *)
Lemma dict_add_occupied (h : heap callback) d n m k v x :
  h !! d = Some n → _data n = PDict m → m !! k = Some v →
  QDataDict.add invoke d k x h =
    if decide (v = x) then (h, Return None)
    else (h, Throw (Error
      "Attempted to add new key to QDataDict that already existed")).
Proof.
  intros Hd Hm Hk. unfold QDataDict.add.
  erewrite bind_Return; [|by eapply entries_Some].
  rewrite Hk. by destruct (decide (v = x)).
Qed.

(** [add] on a free key leaves the element under the key. *)
Lemma dict_add_free (h : heap callback) d n m k x :
  h !! d = Some n → _data n = PDict m → m !! k = None →
  ∃ n1, state_after (QDataDict.add invoke d k x) h !! d = Some n1 ∧
        _data n1 = PDict (<[k := x]> m).
Proof.
  intros Hd Hm Hk. unfold state_after, QDataDict.add.
  erewrite bind_Return; [|by eapply entries_Some].
  rewrite Hk.
  erewrite bind_Return; [|by apply write_Some].
  set (h1 := <[d := set_data (PDict (<[k:=x]> m)) n]> h).
  assert (h1 !! d = Some (set_data (PDict (<[k:=x]> m)) n)) as Hd1
    by apply lookup_insert_eq.
  destruct (h1 !! x) as [nx|] eqn:Hx.
  - erewrite bind_Return; [|by apply addParent_Some].
    erewrite bind_Throw; [|apply notify_run]. cbn [fst].
    edestruct (parents_update h1 d x) as (n2 & nx2 & ? & ? & _);
      [exact Hd1|reflexivity|exact Hx|]. eauto.
  - erewrite bind_Throw; [|by apply addParent_None]. cbn [fst]. eauto.
Qed.


End Collection_properties.

(** ** QWidgetGroup and QTransformer *)

Section Insertion.

Context {child : Type}.
Variable comparator : QWidgetGroup.QWidget child → QWidgetGroup.QWidget child → Z.

(** Between bounds that enclose at least one position the search ends:
    with fuel for the width it returns an index and an array one longer. *)
Lemma insertWidget_between_total fuel qw children : ∀ l r : Z,
  (-1 ≤ l)%Z → (l < r)%Z → (r ≤ Z.of_nat (length children))%Z →
  (r - l ≤ Z.of_nat fuel)%Z →
  ∃ children' idx,
    QWidgetGroup._insertWidget_between fuel comparator qw l r children
      = Some (children', Return idx) ∧
    length children' = S (length children).
Proof.
  induction fuel as [|fuel IH]; intros l r Hl Hlr Hr Hfuel; [lia|].
  cbn [QWidgetGroup._insertWidget_between].
  destruct (decide (r - l = 1)%Z) as [Hw|Hw].
  - destruct (decide _).
    + eexists _, _. split; [reflexivity|]. rewrite length_app. simpl. lia.
    + eexists _, _. split; [reflexivity|]. unfold QWidgetGroup.splice.
      rewrite length_app. cbn [length]. rewrite length_take, length_drop.
      destruct (decide (r < 0)%Z); lia.
  - unfold QWidgetGroup.round_half.
    assert (l < (l + r + 1) / 2 < r)%Z as Hp
      by (Z.to_euclidean_division_equations; lia).
    rewrite decide_True by lia.
    destruct (lookup_lt_is_Some_2 children (Z.to_nat ((l + r + 1) / 2)))
      as [at_pivot Hat]; [lia|].
    rewrite Hat.
    destruct (decide _).
    + eexists _, _. split; [reflexivity|]. unfold QWidgetGroup.splice.
      rewrite length_app. cbn [length]. rewrite length_take, length_drop.
      destruct (decide (_ < 0)%Z); lia.
    + destruct (decide _); apply IH; lia.
Qed.

(** [_insertWidget(qw)] always returns, with the widget in the array. *)
Lemma insertWidget_total qw children :
  ∃ children' idx,
    QWidgetGroup._insertWidget comparator qw children
      = Some (children', Return idx) ∧
    length children' = S (length children).
Proof.
  unfold QWidgetGroup._insertWidget.
  apply insertWidget_between_total; lia.
Qed.

Lemma insertWidget_below_all fuel qw children :
  (∀ c, c ∈ children → (comparator qw c < 0)%Z) →
  ∀ r : Z, (0 ≤ r ≤ Z.of_nat (length children))%Z → (r + 1 ≤ Z.of_nat fuel)%Z →
  QWidgetGroup._insertWidget_between fuel comparator qw (-1) r children
    = Some (children ++ [qw], Return 0%Z).
Proof.
  intros Hcmp. induction fuel as [|fuel IH]; intros r Hr Hfuel; [lia|].
  cbn [QWidgetGroup._insertWidget_between].
  destruct (decide (r - -1 = 1)%Z) as [Hw|Hw].
  - rewrite decide_True by lia. done.
  - unfold QWidgetGroup.round_half.
    assert (0 ≤ (-1 + r + 1) / 2 < r)%Z as Hp
      by (Z.to_euclidean_division_equations; lia).
    rewrite decide_True by lia.
    destruct (lookup_lt_is_Some_2 children (Z.to_nat ((-1 + r + 1) / 2)))
      as [at_pivot Hat]; [lia|].
    rewrite Hat.
    assert (comparator qw at_pivot < 0)%Z as Hlt
      by (eapply Hcmp, list_elem_of_lookup_2, Hat).
    rewrite decide_False by lia. rewrite decide_True by done.
    apply IH; lia.
Qed.

(** X24.  A widget that the comparator puts before every widget of the
    array is pushed behind them all, and 0 is returned. *)
Lemma insertWidget_smallest_is_appended qw children :
  (∀ c, c ∈ children → (comparator qw c < 0)%Z) →
  QWidgetGroup._insertWidget comparator qw children
    = Some (children ++ [qw], Return 0%Z).
Proof.
  intros Hcmp. unfold QWidgetGroup._insertWidget.
  apply insertWidget_below_all; [done|lia|lia].
Qed.

Lemma insertWidget_above_all fuel qw children :
  (∀ c, c ∈ children → (0 < comparator qw c)%Z) →
  ∀ l : Z, (-1 ≤ l < Z.of_nat (length children))%Z →
  (Z.of_nat (length children) - l ≤ Z.of_nat fuel)%Z →
  QWidgetGroup._insertWidget_between fuel comparator qw l
      (Z.of_nat (length children)) children
    = Some (children ++ [qw], Return 0%Z).
Proof.
  intros Hcmp. induction fuel as [|fuel IH]; intros l Hl Hfuel; [lia|].
  cbn [QWidgetGroup._insertWidget_between].
  destruct (decide (Z.of_nat (length children) - l = 1)%Z) as [Hw|Hw].
  - rewrite decide_True by lia. done.
  - unfold QWidgetGroup.round_half.
    assert (l < (l + Z.of_nat (length children) + 1) / 2
              < Z.of_nat (length children))%Z as Hp
      by (Z.to_euclidean_division_equations; lia).
    rewrite decide_True by lia.
    destruct (lookup_lt_is_Some_2 children
                (Z.to_nat ((l + Z.of_nat (length children) + 1) / 2)))
      as [at_pivot Hat]; [lia|].
    rewrite Hat.
    assert (0 < comparator qw at_pivot)%Z as Hlt
      by (eapply Hcmp, list_elem_of_lookup_2, Hat).
    rewrite decide_False by lia. rewrite decide_False by lia.
    apply IH; lia.
Qed.

(** X25.  A widget that the comparator puts behind every widget of the
    array is pushed behind them all, to the index of the former length,
    and 0 is returned. *)
Lemma insertWidget_largest_returns_zero qw children :
  (∀ c, c ∈ children → (0 < comparator qw c)%Z) →
  QWidgetGroup._insertWidget comparator qw children
    = Some (children ++ [qw], Return 0%Z).
Proof.
  intros Hcmp. unfold QWidgetGroup._insertWidget.
  apply insertWidget_above_all; [done|lia|lia].
Qed.

End Insertion.

(** C2 (the code departs from it).  Under the comparator ascending by key,
    the widget with key 1 inserted into the array that holds the widget
    with key 2 is pushed behind it: the array reads 2, 1.  The call
    returns 0 for the widget it placed at index 1, and so does the call
    that inserts key 3 behind key 2. *)
Theorem insertWidget_before_first_appends :
  QWidgetGroup._insertWidget Examples.by_key
      (QWidgetGroup.Widget 1 1%Z) [QWidgetGroup.Widget 0 2%Z]
    = Some ([QWidgetGroup.Widget 0 2%Z; QWidgetGroup.Widget 1 1%Z], Return 0%Z) ∧
  QWidgetGroup._insertWidget Examples.by_key
      (QWidgetGroup.Widget 1 3%Z) [QWidgetGroup.Widget 0 2%Z]
    = Some ([QWidgetGroup.Widget 0 2%Z; QWidgetGroup.Widget 1 3%Z], Return 0%Z).
Proof. split; reflexivity. Qed.


(** C9 (the code departs from it).  The group that rendered the child with
    id "a" holds its widget in the array and under the key "a" of the
    lookup table; the [remove] event of that child finds no widget under
    "a" in the array, throws the error of a non-existent widget and leaves
    the group as it was.  The [remove] event of a child with id "0", for which
    nothing was rendered, finds the widget of "a" at index 0 of the array,
    removes it and returns; the lookup table keeps its entry. *)
Theorem removeHandler_misses_widget :
  QWidgetGroup._children Examples.group_of_a = [QWidgetGroup.Widget 0 "a"] ∧
  QWidgetGroup._childrenMap Examples.group_of_a !! "a"
    = Some (QWidgetGroup.Widget 0 "a") ∧
  QWidgetGroup._removeHandler id "a" Examples.group_of_a
    = (Examples.group_of_a,
       Throw (Error "Tried to remove non-existent widget from QWidgetFactory")) ∧
  QWidgetGroup._childrenMap Examples.group_of_a !! "0" = None ∧
  outcome (QWidgetGroup._removeHandler id "0") Examples.group_of_a = Return () ∧
  QWidgetGroup._children
    (state_after (QWidgetGroup._removeHandler id "0") Examples.group_of_a) = [] ∧
  QWidgetGroup._childrenMap
    (state_after (QWidgetGroup._removeHandler id "0") Examples.group_of_a) !! "a"
    = Some (QWidgetGroup.Widget 0 "a").
Proof. repeat split; reflexivity. Qed.

(** C3 (the code departs from it).  The constructor of the transformer over
    the base [{celsius: 0}] throws; [base.set({celsius: 100})] leaves the
    base at 100 and the derived mapping of the transformer empty, without
    a field [fahrenheit]; [morph] itself changes nothing; and the derived
    mapping is no Record, [set] on it throws. *)
Theorem transformer_derives_nothing :
  let h := state_after Examples.thermometer ∅ in
  let h' := state_after
              (QData.set Examples.run_closure 1%positive {[ "celsius" := VNum 100 ]}) h in
  outcome Examples.thermometer ∅ = Throw TypeError ∧
  outcome (QData.data 1%positive) h' = Return {[ "celsius" := VNum 100 ]} ∧
  outcome (QTransformer.derived 2%positive) h' = Return ∅ ∧
  QTransformer.morph 2%positive h' = (h', Return ()) ∧
  outcome (QData.set Examples.run_closure 2%positive {[ "fahrenheit" := VNum 32 ]}) h'
    = Throw TypeError.
Proof. repeat split; vm_compute; reflexivity. Qed.

(** ** The properties at concrete inputs *)

Section Concrete.

Import Examples.

(** A plain call [QDeleteThis()] in this strict file returns [undefined];
    the marker is what [new QDeleteThis()] makes. *)
Lemma QDeleteThis_calls :
  QData.QDeleteThis ThisUndefined = None ∧
  QData.QDeleteThis ThisFresh = Some VDelete.
Proof. split; reflexivity. Qed.

(** The Record [{title: "A", amount: 2}] after [set({amount: 3})]. *)
Lemma set_amount_scenario :
  outcome (QData.data 1%positive)
    (state_after (QData.set no_callbacks 1%positive {[ "amount" := VNum 3 ]})
       (record title_amount))
  = Return {[ "title" := VStr "A"; "amount" := VNum 3 ]}.
Proof. vm_compute. reflexivity. Qed.

(** The Record [{title: "A", remark: "x"}] after [set({remark: marker})]. *)
Lemma set_remark_scenario :
  outcome (QData.data 1%positive)
    (state_after (QData.set no_callbacks 1%positive {[ "remark" := VDelete ]})
       (record title_remark))
  = Return {[ "title" := VStr "A" ]}.
Proof. vm_compute. reflexivity. Qed.


(** A nested mapping of the patch is merged into the one of the snapshot. *)
Lemma set_nested_scenario :
  QData.apply
    {[ "title" := VStr "A"; "size" := VObj {[ "w" := VNum 1; "h" := VNum 2 ]} ]}
    (VObj {[ "size" := VObj {[ "w" := VNum 5 ]} ]})
  = {[ "title" := VStr "A"; "size" := VObj {[ "w" := VNum 5; "h" := VNum 2 ]} ]}.
Proof. vm_compute. reflexivity. Qed.



(** The Record of that witness after the call. *)
Lemma set_nested_remark_scenario :
  outcome (QData.data 1%positive)
    (state_after
       (QData.set no_callbacks 1%positive
          {[ "meta" := VObj {[ "remark" := VDelete ]} ]})
       (record title_meta))
  = Return {[ "title" := VStr "A"; "meta" := VObj {[ "by" := VStr "me" ]} ]}.
Proof. vm_compute. reflexivity. Qed.

(** An array of the patch is stored as the mapping of its elements. *)
Lemma set_array_scenario :
  QData.apply {[ "title" := VStr "A" ]}
    (VObj {[ "tags" := VArr [VStr "a"; VStr "b"] ]})
  = {[ "title" := VStr "A";
       "tags" := VObj {[ "0" := VStr "a"; "1" := VStr "b" ]} ]}.
Proof. vm_compute. reflexivity. Qed.

(** A mapping of the patch over a string of the snapshot is merged into
    the characters of the string. *)
Lemma set_mapping_over_string_scenario :
  QData.apply title_remark (VObj {[ "remark" := VObj {[ "by" := VStr "me" ]} ]})
  = {[ "title" := VStr "A";
       "remark" := VObj {[ "0" := VStr "x"; "by" := VStr "me" ]} ]}.
Proof. vm_compute. reflexivity. Qed.

(** C10 at [{title: "A", amount: 2}] and the key [amount]. *)
Lemma set_null_stores_mapping_witness :
  ∃ new,
    outcome (QData.data 1%positive)
      (state_after (QData.set no_callbacks 1%positive {[ "amount" := VNull ]})
         (record title_amount)) = Return new ∧
    new !! "amount" = Some (VObj ∅).
Proof.
  destruct (set_null_stores_mapping no_callbacks (record title_amount)
              1%positive title_amount "amount") as (new & Hnew & Hk & _);
    [reflexivity|].
  exists new. split; [exact Hnew|exact Hk].
Defined.

(** C10 as it is stated fails on a prior string: over
    [{title: "A", remark: "x"}], [set({remark: null})] leaves the mapping
    [{0: "x"}] under [remark], not the empty mapping. *)
Lemma set_null_over_string_keeps_characters :
  outcome (QData.data 1%positive) (record title_remark) = Return title_remark ∧
  outcome (QData.data 1%positive)
    (state_after (QData.set no_callbacks 1%positive {[ "remark" := VNull ]})
       (record title_remark))
    = Return {[ "title" := VStr "A"; "remark" := VObj {[ "0" := VStr "x" ]} ]} ∧
  ({[ "title" := VStr "A"; "remark" := VObj {[ "0" := VStr "x" ]} ]}
      : gmap string value) !! "remark" ≠ Some (VObj ∅).
Proof.
  split; [reflexivity|]. split; [vm_compute; reflexivity|].
  intros Heq.
  assert (Some (VStr "x") = None) as Hne; [|discriminate Hne].
  change (Some (VStr "x")) with
    (match ({[ "title" := VStr "A"; "remark" := VObj {[ "0" := VStr "x" ]} ]}
              : gmap string value) !! "remark"
     with Some (VObj m) => m !! "0" | _ => None end).
  by rewrite Heq.
Qed.

(** C6 at the list [c = [x]] and the node [y] that is not in it. *)
Lemma remove_non_member_add_remove_witness :
  QDataList.remove no_callbacks 3%positive 2%positive list_and_stranger =
    (list_and_stranger,
     Throw (Error
       "Attempted to remove QDataObject from a collection it wasn't a member of")) ∧
  ∃ l2,
    outcome (QDataList.items 3%positive)
      (state_after (QDataList.remove no_callbacks 3%positive 2%positive)
         (state_after (QDataList.add no_callbacks 3%positive 2%positive)
            list_and_stranger)) = Return l2 ∧
    l2 = [1%positive] ∧ length l2 = 1.
Proof.
  destruct (remove_non_member_add_remove no_callbacks list_and_stranger
              3%positive 2%positive [1%positive] (Node ∅ [] (PData ∅)))
    as [Hnon _]; [reflexivity|reflexivity|].
  apply Hnon. intros Hin. apply list_elem_of_singleton in Hin. discriminate Hin.
Defined.

(** C6 as it is stated fails for an element that is a member already:
    in the list [c = [x]], [c.add(x)] then [c.remove(x)] leave no member
    where there was one. *)
Lemma add_remove_of_member_loses_it :
  outcome (QDataList.items 2%positive) list_of_one = Return [1%positive] ∧
  outcome (QDataList.items 2%positive)
    (state_after (QDataList.remove no_callbacks 2%positive 1%positive)
       (state_after (QDataList.add no_callbacks 2%positive 1%positive)
          list_of_one)) = Return [] ∧
  length ([] : list loc) ≠ length [1%positive].
Proof. split; [reflexivity|]. split; [reflexivity|]. discriminate. Qed.


End Concrete.

(** * Further properties *)

(** ** Pathspecs *)

Section Pathspec_properties.

Import Pathspec.

Lemma pathToChain_each_last chain v p :
  last chain = Some v →
  match pathToChain_each chain v p with
  | Throw e => Throw e
  | Return None => Return None
  | Return (Some chain') => Return (last chain')
  end = path_value v p.
Proof.
  revert chain v. induction p as [|key p IH]; intros chain v Hlast; cbn.
  - by rewrite Hlast.
  - destruct (get_property v key) as [[next|]|e]; [|done|done].
    apply IH. by rewrite last_snoc.
Qed.

Lemma pathToVal_path_value v p : pathToVal (Some v) p = path_value v p.
Proof. unfold pathToVal, pathToChain. by apply pathToChain_each_last. Qed.

Lemma path_value_app v p1 p2 :
  path_value v (p1 ++ p2) =
  match path_value v p1 with
  | Return (Some w) => path_value w p2
  | Return None => Return None
  | Throw e => Throw e
  end.
Proof.
  revert v. induction p1 as [|key p1 IH]; intros v; cbn; [done|].
  destruct (get_property v key) as [[next|]|e]; [|done|done]. apply IH.
Qed.

(** X1.  Reading along a path that is two paths in a row is reading along
    the first and, from the value found, along the second; where the first
    finds nothing ([undefined]) or throws, so does the whole. *)
Theorem pathToVal_app v p1 p2 :
  pathToVal (Some v) (p1 ++ p2) =
  match pathToVal (Some v) p1 with
  | Return (Some w) => pathToVal (Some w) p2
  | Return None => Return None
  | Throw e => Throw e
  end.
Proof.
  rewrite !pathToVal_path_value, path_value_app.
  destruct (path_value v p1) as [[w|]|e]; [|done|done].
  by rewrite pathToVal_path_value.
Qed.

Lemma split_dots_not_nil s : split_dots s ≠ [].
Proof.
  destruct s as [|c s]; cbn; [done|].
  destruct (decide _); [done|]. by destruct (split_dots s).
Qed.

(** X2.  [mkpath] loses nothing of a dotted string: the keys it makes,
    joined by dots again, are the string. *)
Theorem mkpath_keeps_dotted_string s : join_dots (mkpath (RefString s)) = s.
Proof.
  cbn [mkpath].
  induction s as [|c s IH]; [done|]. cbn [split_dots].
  destruct (decide (c = "."%char)) as [->|Hc].
  - pose proof (split_dots_not_nil s) as Hne.
    destruct (split_dots s) as [|seg rest] eqn:Hs; [done|].
    by rewrite <- IH.
  - pose proof (split_dots_not_nil s) as Hne.
    destruct (split_dots s) as [|seg rest] eqn:Hs; [done|].
    destruct rest as [|seg' rest]; cbn [join_dots] in *; by rewrite <- IH.
Qed.

Lemma split_dots_dot_free key : dot_free key = true → split_dots key = [key].
Proof.
  induction key as [|c key IH]; [done|]. cbn.
  destruct (decide _); [done|]. intros Hk. by rewrite (IH Hk).
Qed.

Lemma split_dots_append key s :
  dot_free key = true →
  split_dots (key +:+ "." +:+ s) = key :: split_dots s.
Proof.
  induction key as [|c key IH]; intros Hk; [done|].
  cbn [dot_free] in Hk. change (String c key +:+ "." +:+ s)
    with (String c (key +:+ "." +:+ s)).
  cbn [split_dots]. destruct (decide (c = "."%char)); [done|].
  by rewrite (IH Hk).
Qed.

Lemma split_dots_join_dots p :
  p ≠ [] → Forall (λ key, dot_free key = true) p →
  split_dots (join_dots p) = p.
Proof.
  induction p as [|key p IH]; [done|]. intros _ Hall.
  apply Forall_cons in Hall as [Hk Hall].
  destruct p as [|key' p].
  - by apply split_dots_dot_free.
  - change (join_dots (key :: key' :: p))
      with (key +:+ "." +:+ join_dots (key' :: p)).
    rewrite split_dots_append by done. by rewrite IH.
Qed.

(** X3.  The two forms of a reference agree: for keys without a dot, the
    dotted string of the keys and the array of the keys make the same path. *)
Theorem mkpath_of_joined_keys p :
  p ≠ [] → Forall (λ key, dot_free key = true) p →
  mkpath (RefString (join_dots p)) = mkpath (RefPath p).
Proof. apply split_dots_join_dots. Qed.

(** X4.  A binding over a mapping: a slot whose path ends at [null] writes
    the empty string, a slot that leads on through that [null] throws a
    [TypeError], and a slot that leads on through a missing key writes the
    empty string. *)
Theorem qbind_value_null_and_missing (m : gmap string value) p1 key p2 :
  p1 ≠ [] →
  Forall (λ key, dot_free key = true) (p1 ++ key :: p2) →
  (pathToVal (Some (VObj m)) p1 = Return (Some VNull) →
     qbind_value (BoundValue (Some (VObj m))) (join_dots p1)
       = Return (VStr EmptyString) ∧
     qbind_value (BoundValue (Some (VObj m))) (join_dots (p1 ++ key :: p2))
       = Throw TypeError) ∧
  (pathToVal (Some (VObj m)) p1 = Return None →
     qbind_value (BoundValue (Some (VObj m))) (join_dots (p1 ++ key :: p2))
       = Return (VStr EmptyString)).
Proof.
  intros Hne Hfree.
  assert (Forall (λ key, dot_free key = true) p1) as Hfree1
    by (apply Forall_app in Hfree; tauto).
  assert (p1 ++ key :: p2 ≠ []) as Hne2 by (by destruct p1).
  unfold qbind_value, refToVal, mkpath.
  rewrite !split_dots_join_dots by done.
  rewrite !pathToVal_path_value, path_value_app. split.
  - intros Hnull. by rewrite Hnull.
  - intros Hnone. by rewrite Hnone.
Qed.

(** ** [apply], key by key *)

Lemma items_from_elem i l k v : items_from i l !! k = Some v → v ∈ l.
Proof.
  revert i. induction l as [|w l IH]; intros i; cbn.
  - by rewrite lookup_empty.
  - destruct (decide (pretty i = k)) as [<-|Hne].
    + rewrite lookup_insert_eq. intros [= ->]. apply list_elem_of_here.
    + rewrite lookup_insert_ne by done. intros Hk.
      apply list_elem_of_further. by eapply IH.
Qed.

Lemma items_from_below i j l : j < i → items_from i l !! pretty j = None.
Proof.
  revert i. induction l as [|w l IH]; intros i Hj; cbn.
  - apply lookup_empty.
  - rewrite lookup_insert_ne; [apply IH; lia|].
    intros Heq. apply (inj pretty) in Heq. lia.
Qed.

(** [apply] over an array, key by key. *)
Lemma apply_array_lookup (l : list value) (o : gmap string value) k :
  QData.apply o (VArr l) !! k =
  match items_from 0 l !! k with
  | Some v => entry v (o !! k)
  | None => o !! k
  end.
Proof.
  cbn [QData.apply]. generalize 0. revert o.
  induction l as [|v l IH]; intros o i.
  - cbn. by rewrite lookup_empty.
  - rewrite IH. cbn [items_from].
    destruct (decide (pretty i = k)) as [<-|Hne].
    + rewrite lookup_insert_eq, items_from_below by lia. unfold entry.
      destruct (instanceof_QDeleteThis v); [by rewrite lookup_delete_eq|].
      destruct (bool_decide _); by rewrite lookup_insert_eq.
    + rewrite lookup_insert_ne by done.
      assert ((if instanceof_QDeleteThis v then delete (pretty i) o
               else if bool_decide (typeof v ≠ "object") then <[pretty i:=v]> o
               else <[pretty i:=VObj (QData.apply (extend (o !! pretty i)) v)]> o)
              !! k = o !! k) as ->; [|done].
      destruct (instanceof_QDeleteThis v); [by rewrite lookup_delete_ne|].
      destruct (bool_decide _); by rewrite lookup_insert_ne.
Qed.

Lemma entry_twice v cur :
  (∀ o, QData.apply (QData.apply o v) v = QData.apply o v) →
  match entry v cur with
  | Some w => entry v (Some w)
  | None => entry v None
  end = entry v cur.
Proof.
  intros IH. unfold entry.
  destruct (instanceof_QDeleteThis v); [done|].
  destruct (bool_decide _); [done|].
  cbn [extend]. by rewrite IH.
Qed.

Lemma apply_idempotent d : ∀ o, QData.apply (QData.apply o d) d = QData.apply o d.
Proof.
  induction d as [| | | | |l IH|m IH] using value_nested_ind; try done.
  - intros o. apply map_eq. intros k. rewrite !apply_array_lookup.
    destruct (items_from 0 l !! k) as [v|] eqn:Hk; [|done].
    pose proof (entry_twice v (o !! k) (IH v (items_from_elem _ _ _ _ Hk))) as Ht.
    by destruct (entry v (o !! k)).
  - intros o. apply map_eq. intros k. rewrite !apply_lookup.
    destruct (m !! k) as [v|] eqn:Hk; [|done].
    pose proof (entry_twice v (o !! k) (IH k v Hk)) as Ht.
    by destruct (entry v (o !! k)).
Qed.

Lemma apply_disjoint_commute (o p1 p2 : gmap string value) :
  p1 ##ₘ p2 →
  QData.apply (QData.apply o (VObj p1)) (VObj p2)
  = QData.apply (QData.apply o (VObj p2)) (VObj p1).
Proof.
  intros Hdisj. apply map_eq. intros k. rewrite !apply_lookup.
  pose proof (map_disjoint_spec p1 p2) as [Hd _]. specialize (Hd Hdisj k).
  destruct (p1 !! k) as [v1|] eqn:H1, (p2 !! k) as [v2|] eqn:H2; try done.
  by destruct (Hd v1 v2).
Qed.

Lemma apply_then_delete (o p : gmap string value) :
  p ##ₘ o →
  QData.apply (QData.apply o (VObj p)) (VObj ((λ _, VDelete) <$> p)) = o.
Proof.
  intros Hfree. apply map_eq. intros k. rewrite !apply_lookup, lookup_fmap.
  destruct (p !! k) as [v|] eqn:Hk; cbn; [|done].
  symmetry. by eapply map_disjoint_Some_l.
Qed.

Lemma apply_empty_patch (o : gmap string value) : QData.apply o (VObj ∅) = o.
Proof. apply map_eq. intros k. by rewrite apply_lookup, lookup_empty. Qed.

(** What [apply] wrote for a scalar of the patch is read back along its
    path. *)
Lemma apply_path_value ks : ∀ old patch pm k v,
  descend ks patch = Some pm → pm !! k = Some v →
  instanceof_QDeleteThis v = false → typeof v ≠ "object" →
  path_value (VObj (QData.apply old (VObj patch))) (ks ++ [k]) = Return (Some v).
Proof.
  induction ks as [|k1 ks IH]; intros old patch pm k v Hpm Hk Hd Ht.
  - injection Hpm as <-. cbn [app path_value get_property].
    rewrite apply_lookup, Hk. unfold entry.
    rewrite Hd. by rewrite bool_decide_eq_true_2.
  - cbn [descend] in Hpm.
    destruct (patch !! k1) as [[| | | | | |p1]|] eqn:Hk1; try discriminate.
    change ((k1 :: ks) ++ [k]) with (k1 :: (ks ++ [k])).
    cbn [path_value get_property]. rewrite apply_lookup, Hk1. unfold entry.
    cbn [instanceof_QDeleteThis typeof].
    rewrite bool_decide_eq_false_2 by (intros ?; done).
    by eapply IH.
Qed.

End Pathspec_properties.

(** ** More of QData *)

Section More_record_properties.

Context {callback : Type} `{EqDecision callback}.
Variable invoke : callback → list arg → M callback unit.

Lemma data_not_record (h : heap callback) r :
  (∀ old, outcome (QData.data r) h ≠ Return old) →
  QData.snapshot r h = (h, Throw TypeError).
Proof.
  intros Hno. unfold outcome, QData.data, QData.snapshot in *.
  rewrite bind_run in *. unfold read in *.
  destruct (h !! r) as [n|]; [|done].
  destruct (_data n); try done. by destruct (Hno d).
Qed.

Lemma set_run_other (h : heap callback) r p :
  (∀ old, outcome (QData.data r) h ≠ Return old) →
  QData.set invoke r p h = (h, Throw TypeError).
Proof.
  intros Hno. unfold QData.set.
  erewrite bind_Throw; [done|]. by apply data_not_record.
Qed.

Lemma not_record_data (h : heap callback) r n :
  h !! r = Some n → (∀ d, _data n ≠ PData d) →
  ∀ old, outcome (QData.data r) h ≠ Return old.
Proof.
  intros Hr Hd old Hold. apply data_inv in Hold as (n' & Hr' & Hd').
  assert (n' = n) as -> by congruence. by destruct (Hd old).
Qed.

(** X6.  [set] never returns its receiver: every call ends in a
    [TypeError], and on a node that is no Record the store is as before. *)
Theorem set_never_returns (h : heap callback) r p :
  outcome (QData.set invoke r p) h = Throw TypeError ∧
  ((∀ old, outcome (QData.data r) h ≠ Return old) →
   state_after (QData.set invoke r p) h = h).
Proof.
  split.
  - destruct (outcome (QData.data r) h) as [old|e] eqn:Hdata.
    + apply data_inv in Hdata as (n & Hr & Hd). unfold outcome.
      by rewrite (set_run invoke _ _ _ _ p Hr Hd).
    + unfold outcome. rewrite set_run_other; [done|]. congruence.
  - intros Hno. unfold state_after. by rewrite set_run_other.
Qed.

(** X7.  [set] touches its receiver only: every other node of the store
    is as before, and the receiver keeps its subscribers and its parents. *)
Theorem set_frame (h : heap callback) r p n :
  h !! r = Some n →
  (∀ l, l ≠ r → state_after (QData.set invoke r p) h !! l = h !! l) ∧
  ∃ n', state_after (QData.set invoke r p) h !! r = Some n' ∧
        _subscribers n' = _subscribers n ∧ _parents n' = _parents n.
Proof.
  intros Hr. destruct (_data n) as [old| | |] eqn:Hd.
  - unfold state_after. rewrite (set_run invoke _ _ _ _ p Hr Hd). cbn [fst].
    split.
    + intros l Hl. by rewrite lookup_insert_ne.
    + eexists. by rewrite lookup_insert_eq.
  - unfold state_after. rewrite set_run_other; [eauto|].
    eapply not_record_data; [done|]. intros d0. by rewrite Hd.
  - unfold state_after. rewrite set_run_other; [eauto|].
    eapply not_record_data; [done|]. intros d0. by rewrite Hd.
  - unfold state_after. rewrite set_run_other; [eauto|].
    eapply not_record_data; [done|]. intros d0. by rewrite Hd.
Qed.

(** X8.  [set({})] on a Record leaves the store as it was. *)
Theorem set_empty_patch (h : heap callback) r old :
  outcome (QData.data r) h = Return old →
  state_after (QData.set invoke r ∅) h = h.
Proof.
  intros (n & Hr & Hd)%data_inv. unfold state_after.
  rewrite (set_run invoke _ _ _ _ ∅ Hr Hd). cbn [fst].
  rewrite apply_empty_patch, (set_data_same _ _ Hd). by apply insert_id.
Qed.

Lemma set_twice_data (h : heap callback) r old p1 p2 :
  outcome (QData.data r) h = Return old →
  outcome (QData.data r)
    (state_after (QData.set invoke r p2) (state_after (QData.set invoke r p1) h))
  = Return (QData.apply (QData.apply old (VObj p1)) (VObj p2)).
Proof.
  intros Hold. apply (set_data_after invoke).
  by apply (set_data_after invoke).
Qed.

(** X9.  Setting the same patch a second time changes nothing of the
    snapshot. *)
Theorem set_idempotent (h : heap callback) r old p :
  outcome (QData.data r) h = Return old →
  outcome (QData.data r)
    (state_after (QData.set invoke r p) (state_after (QData.set invoke r p) h))
  = outcome (QData.data r) (state_after (QData.set invoke r p) h).
Proof.
  intros Hold. rewrite (set_twice_data _ _ _ _ _ Hold).
  rewrite (set_data_after invoke _ _ _ _ Hold). by rewrite apply_idempotent.
Qed.




End More_record_properties.

(** ** More of QPubSub *)

Section PubSub_properties.

Context {callback : Type} `{EqDecision callback}.

(** X12.  [off] for an event type under which nothing was ever subscribed
    is a [TypeError], and the store is as before. *)
Theorem off_without_subscription (h : heap callback) this type cb n :
  h !! this = Some n →
  _subscribers n !! type = None →
  QPubSub.off this type cb h = (h, Throw TypeError).
Proof.
  intros Hn Hs. unfold QPubSub.off.
  erewrite bind_Return; [|by apply read_Some]. by rewrite Hs.
Qed.


End PubSub_properties.

(** ** More of QDataList and QDataDict *)

Section Constructor_properties.

Context {callback : Type} `{EqDecision callback}.

(** The loop of the constructor: every element gets the parent once for
    each time it is listed. *)
Lemma each_addParent (l : list loc) c : ∀ h : heap callback,
  (∀ x, x ∈ l → is_Some (h !! x)) →
  ∃ h', each l (λ v, QDataNode._addParent v c) h = (h', Return ()) ∧
    ∀ a, h' !! a =
      (λ m, set_parents
              (_parents m ++ replicate (length (filter (λ v, v = a) l)) c) m)
      <$> h !! a.
Proof.
  induction l as [|x l IH]; intros h Hall.
  - exists h. split; [done|]. intros a. destruct (h !! a) as [[]|]; cbn; [|done].
    by rewrite app_nil_r.
  - destruct (Hall x) as [nx Hx]; [apply list_elem_of_here|].
    cbn [each]. erewrite bind_Return; [|by apply addParent_Some].
    destruct (IH (<[x := set_parents (_parents nx ++ [c]) nx]> h)) as (h' & Heach & Hh').
    { intros y Hy. destruct (decide (y = x)) as [->|Hne].
      - rewrite lookup_insert_eq. by eexists.
      - rewrite lookup_insert_ne by done. apply Hall. by apply list_elem_of_further. }
    exists h'. split; [done|]. intros a. rewrite Hh'.
    destruct (decide (x = a)) as [->|Hne].
    + rewrite lookup_insert_eq, Hx, filter_cons_True by done. cbn.
      by rewrite <- app_assoc.
    + rewrite lookup_insert_ne, filter_cons_False by done. done.
Qed.


End Constructor_properties.

Section More_list_properties.

Context {callback : Type} `{EqDecision callback}.
Variable invoke : callback → list arg → M callback unit.

(** The store after [add], node by node. *)
Lemma add_store (h : heap callback) c x n l nx :
  h !! c = Some n → _data n = PList l → h !! x = Some nx →
  ∀ a, state_after (QDataList.add invoke c x) h !! a =
    (λ m, Node (_subscribers m)
            (if decide (a = x) then _parents m ++ [c] else _parents m)
            (if decide (a = c) then PList (l ++ [x]) else _data m)) <$> h !! a.
Proof.
  intros Hc Hd Hx a. unfold state_after, QDataList.add.
  erewrite bind_Return; [|by eapply items_Some].
  erewrite bind_Return; [|by apply write_Some].
  destruct (decide (x = c)) as [->|Hxc].
  - assert (nx = n) as -> by congruence.
    erewrite bind_Return; [|apply addParent_Some, lookup_insert_eq].
    erewrite bind_Throw; [|apply (notify_run invoke)]. cbn [fst].
    rewrite insert_insert_eq.
    destruct (decide (a = c)) as [->|Hac].
    + rewrite lookup_insert_eq, Hc. done.
    + rewrite lookup_insert_ne by done. destruct (h !! a) as [[]|]; by cbn.
  - erewrite bind_Return;
      [|apply addParent_Some; rewrite lookup_insert_ne by done; exact Hx].
    erewrite bind_Throw; [|apply (notify_run invoke)]. cbn [fst].
    destruct (decide (a = x)) as [->|Hax].
    + rewrite lookup_insert_eq, Hx. cbn. by rewrite decide_False.
    + rewrite lookup_insert_ne by done.
      destruct (decide (a = c)) as [->|Hac].
      * rewrite lookup_insert_eq, Hc. done.
      * rewrite lookup_insert_ne by done. destruct (h !! a) as [[]|]; by cbn.
Qed.

(** The store after [remove] of a member, node by node. *)
Lemma remove_store (h : heap callback) c x n l nx :
  h !! c = Some n → _data n = PList l → h !! x = Some nx → x ∈ l →
  ∀ a, state_after (QDataList.remove invoke c x) h !! a =
    (λ m, Node (_subscribers m)
            (if decide (a = x) then filter (λ v, v ≠ c) (_parents m) else _parents m)
            (if decide (a = c) then PList (filter (λ v, v ≠ x) l) else _data m))
    <$> h !! a.
Proof.
  intros Hc Hd Hx Hin a. unfold state_after, QDataList.remove.
  erewrite bind_Return; [|by eapply items_Some].
  erewrite bind_Return; [|by apply write_Some].
  destruct (decide _) as [Hlen|_].
  { pose proof (length_filter_lt (λ v, v ≠ x) l x Hin) as Hlt.
    exfalso. assert (¬ x ≠ x) as Hxx by (intros Hxx; by apply Hxx).
    specialize (Hlt Hxx). lia. }
  destruct (decide (x = c)) as [->|Hxc].
  - assert (nx = n) as -> by congruence.
    erewrite bind_Return; [|apply removeParent_Some, lookup_insert_eq].
    erewrite bind_Throw; [|apply (notify_run invoke)]. cbn [fst].
    rewrite insert_insert_eq.
    destruct (decide (a = c)) as [->|Hac].
    + rewrite lookup_insert_eq, Hc. done.
    + rewrite lookup_insert_ne by done. destruct (h !! a) as [[]|]; by cbn.
  - erewrite bind_Return;
      [|apply removeParent_Some; rewrite lookup_insert_ne by done; exact Hx].
    erewrite bind_Throw; [|apply (notify_run invoke)]. cbn [fst].
    destruct (decide (a = x)) as [->|Hax].
    + rewrite lookup_insert_eq, Hx. cbn. by rewrite decide_False.
    + rewrite lookup_insert_ne by done.
      destruct (decide (a = c)) as [->|Hac].
      * rewrite lookup_insert_eq, Hc. done.
      * rewrite lookup_insert_ne by done. destruct (h !! a) as [[]|]; by cbn.
Qed.

Lemma add_keeps_links (h : heap callback) c x l nx :
  linked h → outcome (QDataList.items c) h = Return l → h !! x = Some nx →
  linked (state_after (QDataList.add invoke c x) h).
Proof.
  intros Hlinked (n & Hc & Hd)%items_inv Hx c' n' l' y.
  rewrite !(add_store h c x n l nx Hc Hd Hx).
  destruct (h !! c') as [m|] eqn:Hc'; [|done]. cbn. intros [= <-]. cbn.
  intros Hl'.
  assert (∀ ny, h !! y = Some ny →
    c' ∈ (if decide (y = x) then _parents ny ++ [c] else _parents ny) ↔
    (c' ∈ _parents ny ∨ (y = x ∧ c' = c))) as Hpar.
  { intros ny _. destruct (decide (y = x)).
    - rewrite elem_of_app, list_elem_of_singleton. intuition congruence.
    - intuition congruence. }
  destruct (decide (c' = c)) as [->|Hne].
  - injection Hl' as <-. assert (m = n) as -> by congruence.
    rewrite elem_of_app, list_elem_of_singleton, (Hlinked c n l y Hc Hd).
    split.
    + intros [(ny & Hy & Hin)| ->].
      * rewrite Hy. eexists. split; [done|]. cbn. apply Hpar; eauto.
      * rewrite Hx. eexists. split; [done|]. cbn. apply (Hpar nx); eauto.
    + intros (ny' & Hy' & Hin). destruct (h !! y) as [ny|] eqn:Hy; [|done].
      injection Hy' as <-. cbn in Hin. apply Hpar in Hin as [Hin|[-> _]]; eauto.
  - rewrite (Hlinked c' m l' y Hc' Hl'). split.
    + intros (ny & Hy & Hin). rewrite Hy. eexists. split; [done|]. cbn.
      apply Hpar; eauto.
    + intros (ny' & Hy' & Hin). destruct (h !! y) as [ny|] eqn:Hy; [|done].
      injection Hy' as <-. cbn in Hin. apply Hpar in Hin as [Hin|[_ ->]]; eauto.
      done.
Qed.

Lemma remove_keeps_links (h : heap callback) c x l :
  linked h → outcome (QDataList.items c) h = Return l →
  linked (state_after (QDataList.remove invoke c x) h).
Proof.
  intros Hlinked Hitems.
  destruct (decide (x ∈ l)) as [Hin|Hnot].
  2:{ unfold state_after. by rewrite (remove_non_member invoke h c x l). }
  pose proof Hitems as (n & Hc & Hd)%items_inv.
  pose proof (proj1 (Hlinked c n l x Hc Hd) Hin) as (nx & Hx & Hcx).
  intros c' n' l' y.
  rewrite !(remove_store h c x n l nx Hc Hd Hx Hin).
  destruct (h !! c') as [m|] eqn:Hc'; [|done]. cbn. intros [= <-]. cbn.
  intros Hl'.
  assert (∀ ny, h !! y = Some ny →
    c' ∈ (if decide (y = x) then filter (λ v, v ≠ c) (_parents ny) else _parents ny) ↔
    (c' ∈ _parents ny ∧ ¬ (y = x ∧ c' = c))) as Hpar.
  { intros ny _. destruct (decide (y = x)).
    - rewrite list_elem_of_filter. intuition congruence.
    - intuition congruence. }
  destruct (decide (c' = c)) as [->|Hne].
  - injection Hl' as <-. assert (m = n) as -> by congruence.
    rewrite list_elem_of_filter, (Hlinked c n l y Hc Hd).
    split.
    + intros [Hyx (ny & Hy & Hin')].
      rewrite Hy. eexists. split; [done|]. cbn. apply Hpar; intuition congruence.
    + intros (ny' & Hy' & Hin'). destruct (h !! y) as [ny|] eqn:Hy; [|done].
      injection Hy' as <-. cbn in Hin'. apply Hpar in Hin' as [Hin' Hno]; [|done].
      split; [intuition congruence|eauto].
  - rewrite (Hlinked c' m l' y Hc' Hl'). split.
    + intros (ny & Hy & Hin'). rewrite Hy. eexists. split; [done|]. cbn.
      apply Hpar; intuition congruence.
    + intros (ny' & Hy' & Hin'). destruct (h !! y) as [ny|] eqn:Hy; [|done].
      injection Hy' as <-. cbn in Hin'. apply Hpar in Hin' as [Hin' _]; eauto.
Qed.



(** X16.  After [add(x)] on a list of length n, [get(n)] is [x], and [get]
    below n is what it was. *)
Theorem add_then_get (h : heap callback) c x l nx :
  outcome (QDataList.items c) h = Return l →
  h !! x = Some nx →
  outcome (QDataList.get c (length l))
    (state_after (QDataList.add invoke c x) h) = Return (Some x) ∧
  ∀ i, i < length l →
    outcome (QDataList.get c i) (state_after (QDataList.add invoke c x) h)
      = Return (l !! i).
Proof.
  intros (n & Hc & Hd)%items_inv Hx.
  destruct (add_effect invoke h c x n l nx Hc Hd Hx)
    as (h2 & n2 & nx2 & Hadd & Hc2 & Hd2 & _).
  unfold state_after, outcome. rewrite Hadd. cbn [fst].
  unfold QDataList.get. split.
  - erewrite bind_Return; [|by eapply items_Some]. cbn.
    by rewrite lookup_app_r, Nat.sub_diag.
  - intros i Hi. erewrite bind_Return; [|by eapply items_Some]. cbn.
    by rewrite lookup_app_l.
Qed.

(** X17.  [remove] takes out every occurrence of a member at once, so a
    second [remove] of it throws the error of a non-member. *)
Theorem remove_twice (h : heap callback) c x l nx :
  outcome (QDataList.items c) h = Return l →
  x ∈ l → h !! x = Some nx →
  outcome (QDataList.remove invoke c x)
    (state_after (QDataList.remove invoke c x) h)
  = Throw (Error
      "Attempted to remove QDataObject from a collection it wasn't a member of") ∧
  outcome (QDataList.items c) (state_after (QDataList.remove invoke c x) h)
  = Return (filter (λ v, v ≠ x) l).
Proof.
  intros (n & Hc & Hd)%items_inv Hin Hx.
  destruct (remove_effect invoke h c x n l nx Hc Hd Hx Hin)
    as (h2 & n2 & nx2 & Hrem & Hc2 & Hd2 & _).
  unfold state_after. rewrite Hrem. cbn [fst].
  assert (outcome (QDataList.items c) h2 = Return (filter (λ v, v ≠ x) l)) as Hit.
  { unfold outcome. by erewrite items_Some. }
  split; [|done]. unfold outcome.
  rewrite (remove_non_member invoke h2 c x _ Hit); [done|].
  apply filter_ne_not_elem.
Qed.

End More_list_properties.

Section More_dict_properties.

Context {callback : Type} `{EqDecision callback}.
Variable invoke : callback → list arg → M callback unit.

(** The store after [add] on a free key, node by node. *)
Lemma dict_add_store (h : heap callback) d k x n m nx :
  h !! d = Some n → _data n = PDict m → m !! k = None → h !! x = Some nx →
  ∀ a, state_after (QDataDict.add invoke d k x) h !! a =
    (λ w, Node (_subscribers w)
            (if decide (a = x) then _parents w ++ [d] else _parents w)
            (if decide (a = d) then PDict (<[k := x]> m) else _data w)) <$> h !! a.
Proof.
  intros Hd Hm Hk Hx a. unfold state_after, QDataDict.add.
  erewrite bind_Return; [|by eapply entries_Some]. rewrite Hk.
  erewrite bind_Return; [|by apply write_Some].
  destruct (decide (x = d)) as [->|Hxd].
  - assert (nx = n) as -> by congruence.
    erewrite bind_Return; [|apply addParent_Some, lookup_insert_eq].
    erewrite bind_Throw; [|apply (notify_run invoke)]. cbn [fst].
    rewrite insert_insert_eq.
    destruct (decide (a = d)) as [->|Had].
    + rewrite lookup_insert_eq, Hd. done.
    + rewrite lookup_insert_ne by done. destruct (h !! a) as [[]|]; by cbn.
  - erewrite bind_Return;
      [|apply addParent_Some; rewrite lookup_insert_ne by done; exact Hx].
    erewrite bind_Throw; [|apply (notify_run invoke)]. cbn [fst].
    destruct (decide (a = x)) as [->|Hax].
    + rewrite lookup_insert_eq, Hx. cbn. by rewrite decide_False.
    + rewrite lookup_insert_ne by done.
      destruct (decide (a = d)) as [->|Had].
      * rewrite lookup_insert_eq, Hd. done.
      * rewrite lookup_insert_ne by done. destruct (h !! a) as [[]|]; by cbn.
Qed.

(** The store after [removeKey] of a key that holds [x], node by node. *)
Lemma dict_removeKey_store (h : heap callback) d k x n m nx :
  h !! d = Some n → _data n = PDict m → m !! k = Some x → h !! x = Some nx →
  ∀ a, state_after (QDataDict.removeKey invoke d k) h !! a =
    (λ w, Node (_subscribers w)
            (if decide (a = x) then filter (λ v, v ≠ d) (_parents w) else _parents w)
            (if decide (a = d) then PDict (delete k m) else _data w)) <$> h !! a.
Proof.
  intros Hd Hm Hk Hx a. unfold state_after, QDataDict.removeKey.
  erewrite bind_Return; [|by eapply entries_Some]. rewrite Hk.
  erewrite bind_Return; [|by apply write_Some].
  destruct (decide (x = d)) as [->|Hxd].
  - assert (nx = n) as -> by congruence.
    erewrite bind_Return; [|apply removeParent_Some, lookup_insert_eq].
    erewrite bind_Throw; [|apply (notify_run invoke)]. cbn [fst].
    rewrite insert_insert_eq.
    destruct (decide (a = d)) as [->|Had].
    + rewrite lookup_insert_eq, Hd. done.
    + rewrite lookup_insert_ne by done. destruct (h !! a) as [[]|]; by cbn.
  - erewrite bind_Return;
      [|apply removeParent_Some; rewrite lookup_insert_ne by done; exact Hx].
    erewrite bind_Throw; [|apply (notify_run invoke)]. cbn [fst].
    destruct (decide (a = x)) as [->|Hax].
    + rewrite lookup_insert_eq, Hx. cbn. by rewrite decide_False.
    + rewrite lookup_insert_ne by done.
      destruct (decide (a = d)) as [->|Had].
      * rewrite lookup_insert_eq, Hd. done.
      * rewrite lookup_insert_ne by done. destruct (h !! a) as [[]|]; by cbn.
Qed.

(** X18.  [add] of a node under a free key and [removeKey] of that key
    give the store back, when the node did not have the dictionary among
    its parents before. *)
Theorem dict_add_removeKey_restores (h : heap callback) d k x m nx :
  outcome (QDataDict.entries d) h = Return m →
  m !! k = None →
  h !! x = Some nx →
  d ∉ _parents nx →
  state_after (QDataDict.removeKey invoke d k)
    (state_after (QDataDict.add invoke d k x) h) = h.
Proof.
  intros (n & Hd & Hm)%entries_inv Hk Hx Hpar.
  pose proof (dict_add_store h d k x n m nx Hd Hm Hk Hx) as Hadd.
  set (h1 := state_after (QDataDict.add invoke d k x) h) in *.
  assert (∃ n1, h1 !! d = Some n1 ∧ _data n1 = PDict (<[k := x]> m))
    as (n1 & Hd1 & Hm1).
  { rewrite Hadd, Hd. eexists. split; [done|]. cbn. by rewrite decide_True. }
  assert (∃ nx1, h1 !! x = Some nx1) as (nx1 & Hx1).
  { rewrite Hadd, Hx. by eexists. }
  apply map_eq. intros a.
  rewrite (dict_removeKey_store h1 d k x n1 _ nx1 Hd1 Hm1
             ltac:(apply lookup_insert_eq) Hx1).
  rewrite Hadd. destruct (h !! a) as [w|] eqn:Ha; [|done].
  cbn [fmap option_fmap option_map _subscribers _parents _data]. f_equal.
  assert ((if decide (a = x)
           then filter (λ v, v ≠ d)
                  (if decide (a = x) then _parents w ++ [d] else _parents w)
           else if decide (a = x) then _parents w ++ [d] else _parents w)
          = _parents w) as ->.
  { destruct (decide (a = x)) as [->|]; [|done].
    assert (w = nx) as -> by congruence.
    rewrite filter_app, filter_cons_False, filter_nil, app_nil_r;
      [|by intros Hne; apply Hne].
    by apply filter_ne_id. }
  assert ((if decide (a = d) then PDict (delete k (<[k:=x]> m))
           else if decide (a = d) then PDict (<[k:=x]> m) else _data w)
          = _data w) as ->.
  { destruct (decide (a = d)) as [->|]; [|done].
    rewrite delete_insert_id by done. assert (w = n) as -> by congruence. done. }
  by destruct w.
Qed.

(** X19.  A node held under two keys loses the dictionary as a parent
    with the first [removeKey], while the dictionary still holds it under
    the other key. *)
Theorem dict_removeKey_drops_shared_parent (h : heap callback) d k1 k2 x m nx :
  outcome (QDataDict.entries d) h = Return m →
  m !! k1 = Some x → m !! k2 = Some x → k1 ≠ k2 →
  h !! x = Some nx →
  ∃ m' nx',
    outcome (QDataDict.entries d)
      (state_after (QDataDict.removeKey invoke d k1) h) = Return m' ∧
    m' !! k2 = Some x ∧
    state_after (QDataDict.removeKey invoke d k1) h !! x = Some nx' ∧
    d ∉ _parents nx'.
Proof.
  intros (n & Hd & Hm)%entries_inv Hk1 Hk2 Hne Hx.
  pose proof (dict_removeKey_store h d k1 x n m nx Hd Hm Hk1 Hx) as Hrem.
  exists (delete k1 m).
  eexists (Node _ _ _). split; [|split; [|split]].
  - unfold outcome. erewrite entries_Some; [done| |].
    + rewrite Hrem, Hd. done.
    + cbn. by rewrite decide_True.
  - by rewrite lookup_delete_ne.
  - rewrite Hrem, Hx. cbn. by rewrite decide_True.
  - cbn. apply filter_ne_not_elem.
Qed.

End More_dict_properties.

Section Never_return.

Context {callback : Type} `{EqDecision callback}.
Variable invoke : callback → list arg → M callback unit.

(** What follows [_notify] in a method body is never run. *)
Lemma notify_then {A B} (m : M callback A) this type rest (k : M callback B)
    (h : heap callback) :
  (∃ e, outcome (m ;; QPubSub._notify invoke this type rest ;; k) h = Throw e).
Proof.
  unfold outcome. rewrite bind_run. destruct (m h) as [h' [a|e]]; cbn; eauto.
Qed.

(** X20.  No mutator of a collection returns its receiver: [add] and
    [remove] of a list and [removeKey] of a dictionary always throw, and
    [add] of a dictionary throws or returns [undefined]. *)
Theorem collection_mutators_never_return (h : heap callback) c x key :
  (∃ e, outcome (QDataList.add invoke c x) h = Throw e) ∧
  (∃ e, outcome (QDataList.remove invoke c x) h = Throw e) ∧
  (outcome (QDataDict.add invoke c key x) h = Return None ∨
   ∃ e, outcome (QDataDict.add invoke c key x) h = Throw e) ∧
  (∃ e, outcome (QDataDict.removeKey invoke c key) h = Throw e).
Proof.
  split; [|split; [|split]].
  - unfold outcome, QDataList.add. rewrite bind_run.
    destruct (QDataList.items c h) as [h1 [l|e]]; [|cbn; eauto].
    rewrite bind_run. destruct (write _ _ h1) as [h2 [[]|e]]; [|cbn; eauto].
    apply notify_then.
  - unfold outcome, QDataList.remove. rewrite bind_run.
    destruct (QDataList.items c h) as [h1 [l|e]]; [|cbn; eauto].
    rewrite bind_run. destruct (write _ _ h1) as [h2 [[]|e]]; [|cbn; eauto].
    destruct (decide _); [cbn; eauto|]. apply notify_then.
  - unfold outcome, QDataDict.add. rewrite bind_run.
    destruct (QDataDict.entries c h) as [h1 [m|e]]; [|cbn; eauto].
    destruct (m !! key) as [v|].
    + destruct (decide _); cbn; eauto.
    + right. rewrite bind_run. destruct (write _ _ h1) as [h2 [[]|e]]; [|cbn; eauto].
      apply notify_then.
  - unfold outcome, QDataDict.removeKey. rewrite bind_run.
    destruct (QDataDict.entries c h) as [h1 [m|e]]; [|cbn; eauto].
    destruct (m !! key) as [v|]; [|cbn; eauto].
    rewrite bind_run. destruct (write _ _ h1) as [h2 [[]|e]]; [|cbn; eauto].
    apply notify_then.
Qed.

End Never_return.

(** ** More of QTransformer and QWidgetGroup *)

Section Transformer_properties.

Context {callback : Type} `{EqDecision callback}.
Variable morph_handler : loc → callback.


End Transformer_properties.

Section Group_properties.

Import QWidgetGroup.

Lemma splice_take_drop {A} (a : list A) (i : Z) (x : A) :
  (0 ≤ i ≤ Z.of_nat (length a))%Z →
  splice a i x = take (Z.to_nat i) a ++ x :: drop (Z.to_nat i) a.
Proof.
  intros Hi. unfold splice. rewrite decide_False by lia.
  by rewrite Z.min_l by lia.
Qed.

Lemma insert_at_Permutation {A} (a : list A) n (x : A) :
  take n a ++ x :: drop n a ≡ₚ x :: a.
Proof. by rewrite <- Permutation_middle, take_drop. Qed.

Section Insertion_more.

Context {child : Type}.
Variable comparator : QWidget child → QWidget child → Z.

Lemma insertWidget_between_Permutation fuel qw children : ∀ l r : Z,
  (-1 ≤ l)%Z → (l < r)%Z → (r ≤ Z.of_nat (length children))%Z →
  (r - l ≤ Z.of_nat fuel)%Z →
  ∃ children' idx,
    _insertWidget_between fuel comparator qw l r children
      = Some (children', Return idx) ∧
    children' ≡ₚ qw :: children ∧
    (0 ≤ idx ≤ Z.of_nat (length children))%Z.
Proof.
  induction fuel as [|fuel IH]; intros l r Hl Hlr Hr Hfuel; [lia|].
  cbn [_insertWidget_between].
  destruct (decide (r - l = 1)%Z) as [Hw|Hw].
  - destruct (decide _).
    + eexists _, _. split; [reflexivity|]. split; [|lia].
      by rewrite <- Permutation_cons_append.
    + eexists _, _. split; [reflexivity|]. split; [|lia].
      rewrite splice_take_drop by lia. apply insert_at_Permutation.
  - unfold round_half.
    assert (l < (l + r + 1) / 2 < r)%Z as Hp
      by (Z.to_euclidean_division_equations; lia).
    rewrite decide_True by lia.
    destruct (lookup_lt_is_Some_2 children (Z.to_nat ((l + r + 1) / 2)))
      as [at_pivot Hat]; [lia|].
    rewrite Hat.
    destruct (decide _).
    + eexists _, _. split; [reflexivity|]. split; [|lia].
      rewrite splice_take_drop by lia. apply insert_at_Permutation.
    + destruct (decide _); apply IH; lia.
Qed.

(** X22.  [_insertWidget] always returns: the array then holds the new
    widget and the widgets from before, each as often as before, and the
    index returned is one of the array from before or its length. *)
Theorem insertWidget_keeps_every_widget qw children :
  ∃ children' idx,
    _insertWidget comparator qw children = Some (children', Return idx) ∧
    children' ≡ₚ qw :: children ∧
    (0 ≤ idx ≤ Z.of_nat (length children))%Z.
Proof.
  unfold _insertWidget. apply insertWidget_between_Permutation; lia.
Qed.

Variable key : QWidget child → Z.
Hypothesis comparator_by_key : ∀ a b,
  ((comparator a b < 0)%Z ↔ (key a < key b)%Z) ∧
  ((comparator a b = 0)%Z ↔ key a = key b).

Lemma sorted_lookup_le (l : list (QWidget child)) i j a b :
  StronglySorted (by_key_le key) l → i ≤ j →
  l !! i = Some a → l !! j = Some b → (key a ≤ key b)%Z.
Proof.
  intros Hs Hij Ha Hb. destruct (decide (i = j)) as [->|Hne].
  { assert (a = b) as -> by congruence. lia. }
  rewrite <- (take_drop j l) in Hs.
  eapply (StronglySorted_app_1_elem_of _ _ _ a b) in Hs; [done| |].
  - apply elem_of_take. exists i. split; [done|lia].
  - apply list_elem_of_lookup. exists 0. by rewrite lookup_drop, Nat.add_0_r.
Qed.

Lemma insert_at_sorted (l : list (QWidget child)) i x :
  StronglySorted (by_key_le key) l →
  (∀ j a, j < i → l !! j = Some a → (key a ≤ key x)%Z) →
  (∀ j a, i ≤ j → l !! j = Some a → (key x ≤ key a)%Z) →
  StronglySorted (by_key_le key) (take i l ++ x :: drop i l).
Proof.
  intros Hs Hbelow Habove. rewrite <- (take_drop i l) in Hs.
  apply StronglySorted_app in Hs as (Hcross & Hs1 & Hs2).
  apply StronglySorted_app. split; [|split; [done|]].
  - intros a b Ha Hb. apply elem_of_take in Ha as (j & Hj & Hlt).
    apply elem_of_cons in Hb as [->|Hb]; [by eapply Hbelow|].
    apply Hcross; [|done]. apply elem_of_take. eauto.
  - apply StronglySorted_cons. split; [|done].
    apply Forall_forall. intros b Hb.
    apply list_elem_of_lookup in Hb as [j Hj]. rewrite lookup_drop in Hj.
    eapply Habove; [|done]. lia.
Qed.

Lemma insertWidget_between_sorted fuel qw children first final :
  StronglySorted (by_key_le key) children →
  head children = Some first → last children = Some final →
  (key first ≤ key qw ≤ key final)%Z →
  ∀ l r : Z,
  (-1 ≤ l)%Z → (l < r)%Z → (r ≤ Z.of_nat (length children))%Z →
  (r - l ≤ Z.of_nat fuel)%Z →
  (∀ a, (0 ≤ l)%Z → children !! Z.to_nat l = Some a → (key a < key qw)%Z) →
  (∀ b, children !! Z.to_nat r = Some b → (key qw < key b)%Z) →
  ∃ children' idx,
    _insertWidget_between fuel comparator qw l r children
      = Some (children', Return idx) ∧
    StronglySorted (by_key_le key) children' ∧
    (0 ≤ idx)%Z ∧ children' !! Z.to_nat idx = Some qw.
Proof.
  intros Hs Hfirst Hfinal Hrange.
  rewrite head_lookup in Hfirst. rewrite last_lookup in Hfinal.
  assert (0 < length children) as Hlen
    by (apply lookup_lt_Some in Hfirst; lia).
  assert (∀ i : Z, (0 ≤ i ≤ Z.of_nat (length children))%Z →
    StronglySorted (by_key_le key) (take (Z.to_nat i) children ++ qw :: drop (Z.to_nat i) children) →
    ∃ children' idx,
      Some (splice children i qw, Return i) = Some (children', Return idx) ∧
      StronglySorted (by_key_le key) children' ∧
      (0 ≤ idx)%Z ∧ children' !! Z.to_nat idx = Some qw) as Hsplice.
  { intros i Hi Hsorted. eexists _, _. split; [reflexivity|].
    rewrite splice_take_drop by done. split; [done|]. split; [lia|].
    apply list_lookup_middle. rewrite length_take. lia. }
  induction fuel as [|fuel IH]; intros l r Hl Hlr Hr Hfuel Hlow Hhigh; [lia|].
  cbn [_insertWidget_between].
  destruct (decide (r - l = 1)%Z) as [Hw|Hw].
  - destruct (decide (r = 0 ∨ r = Z.of_nat (length children))%Z) as [[->| ->]|Hmid].
    + specialize (Hhigh first Hfirst). lia.
    + exfalso. specialize (Hlow final ltac:(lia)).
      replace (Z.to_nat l) with (pred (length children)) in Hlow by lia.
      specialize (Hlow Hfinal). lia.
    + apply Hsplice; [lia|]. apply insert_at_sorted; [done| |].
      * intros j a Hj Ha.
        destruct (lookup_lt_is_Some_2 children (Z.to_nat l)) as [c Hc]; [lia|].
        specialize (Hlow c ltac:(lia) Hc).
        pose proof (sorted_lookup_le children j (Z.to_nat l) a c Hs ltac:(lia) Ha Hc).
        lia.
      * intros j b Hj Hb.
        destruct (lookup_lt_is_Some_2 children (Z.to_nat r)) as [c Hc]; [lia|].
        specialize (Hhigh c Hc).
        pose proof (sorted_lookup_le children (Z.to_nat r) j c b Hs ltac:(lia) Hc Hb).
        lia.
  - unfold round_half.
    assert (l < (l + r + 1) / 2 < r)%Z as Hp
      by (Z.to_euclidean_division_equations; lia).
    rewrite decide_True by lia.
    destruct (lookup_lt_is_Some_2 children (Z.to_nat ((l + r + 1) / 2)))
      as [at_pivot Hat]; [lia|].
    rewrite Hat.
    destruct (comparator_by_key qw at_pivot) as [Hlt Heq].
    destruct (decide (comparator qw at_pivot = 0)%Z) as [H0|H0].
    + apply Hsplice; [lia|]. apply Heq in H0.
      apply insert_at_sorted; [done| |].
      * intros j a Hj Ha.
        pose proof (sorted_lookup_le children j (Z.to_nat ((l + r + 1) / 2)) a at_pivot Hs ltac:(lia) Ha Hat).
        lia.
      * intros j b Hj Hb.
        pose proof (sorted_lookup_le children (Z.to_nat ((l + r + 1) / 2)) j at_pivot b Hs ltac:(lia) Hat Hb).
        lia.
    + destruct (decide (comparator qw at_pivot < 0)%Z) as [Hneg|Hpos].
      * apply IH; [lia..| |]; [done|].
        intros b Hb. assert (b = at_pivot) as -> by congruence. by apply Hlt.
      * apply IH; [lia..| |done].
        intros a _ Ha. assert (a = at_pivot) as -> by congruence.
        assert (key qw ≠ key at_pivot) by (intros E; apply Heq in E; done).
        assert (¬ (key qw < key at_pivot)%Z) by (intros E; apply Hlt in E; done).
        lia.
Qed.

(** X23.  Under a comparator that orders by a key, a widget whose key is
    neither below the first nor above the last key of a sorted array is
    inserted in order: the array is sorted afterwards and holds the widget
    at the index returned. *)
Theorem insertWidget_within_range qw children first final :
  StronglySorted (by_key_le key) children →
  head children = Some first → last children = Some final →
  (key first ≤ key qw ≤ key final)%Z →
  ∃ children' idx,
    _insertWidget comparator qw children = Some (children', Return idx) ∧
    StronglySorted (by_key_le key) children' ∧
    (0 ≤ idx)%Z ∧ children' !! Z.to_nat idx = Some qw.
Proof.
  intros Hs Hfirst Hfinal Hrange. unfold _insertWidget.
  eapply insertWidget_between_sorted; try done; try lia.
  intros b Hb. apply lookup_lt_Some in Hb. lia.
Qed.

End Insertion_more.

Lemma array_get_from_None {A} (a : list A) key : ∀ i,
  (∀ j, j < length a → pretty (i + j) ≠ key) → array_get_from i a key = None.
Proof.
  induction a as [|x a IH]; intros i Hno; [done|]. cbn.
  rewrite decide_False by (specialize (Hno 0); rewrite Nat.add_0_r in Hno; apply Hno; cbn; lia).
  apply IH. intros j Hj. replace (S i + j) with (i + S j) by lia.
  apply Hno. cbn. lia.
Qed.

Lemma array_get_from_Some {A} (a : list A) key x : ∀ i j,
  a !! j = Some x → pretty (i + j) = key →
  array_get_from i a key = Some x ∧ array_index_from i a key = Some (i + j).
Proof.
  induction a as [|y a IH]; intros i j Hj Hkey; [done|].
  destruct j as [|j]; cbn.
  - injection Hj as ->. rewrite Nat.add_0_r in *. by rewrite !decide_True.
  - rewrite !decide_False
      by (rewrite <- Hkey; intros Heq; apply (inj pretty) in Heq; lia).
    replace (i + S j) with (S i + j) in * by lia. by apply IH.
Qed.

Lemma filter_ne_delete {A} `{EqDecision A} (l : list A) i x :
  l !! i = Some x → filter (λ e, e ≠ x) (delete i l) = filter (λ e, e ≠ x) l.
Proof.
  revert i. induction l as [|y l IH]; intros i Hi; [done|].
  destruct i as [|i]; cbn in Hi.
  - injection Hi as ->. change (delete 0 (x :: l)) with l.
    rewrite filter_cons_False; [done|]. by intros Hne; apply Hne.
  - change (delete (S i) (y :: l)) with (y :: delete i l).
    rewrite !filter_cons. by rewrite (IH i Hi).
Qed.

Section Group_events.

Context {child : Type} `{EqDecision child}.
Variable idField_of : child → string.

Lemma removeHandler_no_index (g : group child) chld :
  (∀ i, i < length (_children g) → pretty i ≠ idField_of chld) →
  _removeHandler idField_of chld g
  = (g, Throw (Error "Tried to remove non-existent widget from QWidgetFactory")).
Proof.
  intros Hno. unfold _removeHandler, array_get.
  by rewrite array_get_from_None.
Qed.


Lemma addHandler_run (g : group child) c :
  ∃ children idx,
    _addHandler idField_of ThisReceiver c g
    = (Group children (<[idField_of c := Widget (constructed g) c]> (_childrenMap g))
             (_comparator g) (_insertElem (constructed g) idx (c_children g))
             (S (constructed g)),
       Return ()) ∧
    _insertWidget (_comparator g) (Widget (constructed g) c) (_children g)
      = Some (children, Return idx) ∧
    children ≡ₚ Widget (constructed g) c :: _children g.
Proof.
  destruct (insertWidget_between_Permutation (_comparator g)
              (S (length (_children g))) (Widget (constructed g) c) (_children g)
              (-1) (Z.of_nat (length (_children g))))
    as (children & idx & Hins & Hperm & _); [lia..|].
  fold (_insertWidget (_comparator g) (Widget (constructed g) c) (_children g))
    in Hins.
  exists children, idx. split; [|done].
  unfold _addHandler.
  cbn [_comparator _children _childrenMap c_children constructed element identity].
  by rewrite Hins.
Qed.



End Group_events.

End Group_properties.

(** ** The further properties at concrete inputs *)

Section Further_concrete.

Import Examples Scenarios.

(** X3 at the keys [meta] and [remark]. *)
Lemma mkpath_of_joined_keys_witness :
  ["meta"; "remark"] ≠ [] ∧
  Forall (λ key, dot_free key = true) ["meta"; "remark"] ∧
  Pathspec.mkpath (Pathspec.RefString (join_dots ["meta"; "remark"]))
    = Pathspec.mkpath (Pathspec.RefPath ["meta"; "remark"]).
Proof.
  split; [done|]. split; [by repeat constructor|].
  apply mkpath_of_joined_keys; [done|by repeat constructor].
Defined.

(** X4 at the mapping [{meta: null}] and the slots [meta] and
    [meta.remark]. *)
Lemma qbind_value_null_and_missing_witness :
  ["meta"] ≠ [] ∧
  Forall (λ key, dot_free key = true) (["meta"] ++ ["remark"]) ∧
  Pathspec.pathToVal (Some (VObj {[ "meta" := VNull ]})) ["meta"]
    = Return (Some VNull) ∧
  Pathspec.qbind_value (Pathspec.BoundValue (Some (VObj {[ "meta" := VNull ]})))
    (join_dots ["meta"]) = Return (VStr EmptyString) ∧
  Pathspec.qbind_value (Pathspec.BoundValue (Some (VObj {[ "meta" := VNull ]})))
    (join_dots (["meta"] ++ ["remark"])) = Throw TypeError.
Proof.
  split; [done|]. split; [by repeat constructor|]. split; [reflexivity|].
  apply (qbind_value_null_and_missing {[ "meta" := VNull ]} ["meta"] "remark" []);
    [done|by repeat constructor|reflexivity].
Defined.


(** X7 at the Record [{title: "A", amount: 2}] and the patch
    [{amount: 3}]. *)
Lemma set_frame_witness :
  record title_amount !! 1%positive = Some (Node ∅ [] (PData title_amount)) ∧
  (∀ l, l ≠ 1%positive →
     state_after (QData.set no_callbacks 1%positive {[ "amount" := VNum 3 ]})
       (record title_amount) !! l = record title_amount !! l) ∧
  ∃ n', state_after (QData.set no_callbacks 1%positive {[ "amount" := VNum 3 ]})
          (record title_amount) !! 1%positive = Some n' ∧
        _subscribers n' = _subscribers (Node ∅ [] (PData title_amount)) ∧
        _parents n' = _parents (Node (callback := Empty_set) ∅ [] (PData title_amount)).
Proof.
  split; [reflexivity|].
  apply (set_frame no_callbacks (record title_amount) 1%positive
           {[ "amount" := VNum 3 ]} (Node ∅ [] (PData title_amount))).
  reflexivity.
Defined.

(** X8 at the Record [{title: "A", amount: 2}]. *)
Lemma set_empty_patch_witness :
  outcome (QData.data 1%positive) (record title_amount) = Return title_amount ∧
  state_after (QData.set no_callbacks 1%positive ∅) (record title_amount)
    = record title_amount.
Proof.
  split; [reflexivity|].
  apply (set_empty_patch no_callbacks (record title_amount) 1%positive title_amount).
  reflexivity.
Defined.

(** X9 at the Record [{title: "A", amount: 2}] and the patch
    [{amount: 3}]. *)
Lemma set_idempotent_witness :
  outcome (QData.data 1%positive) (record title_amount) = Return title_amount ∧
  outcome (QData.data 1%positive)
    (state_after (QData.set no_callbacks 1%positive {[ "amount" := VNum 3 ]})
       (state_after (QData.set no_callbacks 1%positive {[ "amount" := VNum 3 ]})
          (record title_amount)))
  = outcome (QData.data 1%positive)
      (state_after (QData.set no_callbacks 1%positive {[ "amount" := VNum 3 ]})
         (record title_amount)).
Proof.
  split; [reflexivity|].
  apply (set_idempotent no_callbacks (record title_amount) 1%positive title_amount).
  reflexivity.
Defined.



(** X12 at the Record [{celsius: 0}], which has no subscriber. *)
Lemma off_without_subscription_witness :
  watched !! 1%positive = Some (Node ∅ [] (PData {[ "celsius" := VNum 0 ]})) ∧
  _subscribers (Node (callback := closure) ∅ [] (PData {[ "celsius" := VNum 0 ]}))
    !! "change" = None ∧
  QPubSub.off 1%positive "change" (Morph 2%positive) watched
    = (watched, Throw TypeError).
Proof.
  split; [reflexivity|]. split; [reflexivity|].
  apply (off_without_subscription watched 1%positive "change" (Morph 2%positive)
           (Node ∅ [] (PData {[ "celsius" := VNum 0 ]})));
    reflexivity.
Defined.



(** The store of a list, a member and a stranger is linked. *)
Lemma list_and_stranger_linked : linked list_and_stranger.
Proof.
  assert (list_and_stranger
          = <[1%positive := Node ∅ [3%positive] (PData ∅)]>
              (<[2%positive := Node ∅ [] (PData ∅)]>
                 {[ 3%positive := Node ∅ [] (PList [1%positive]) ]})) as ->
    by (vm_compute; reflexivity).
  intros c n l x Hc Hd.
  apply lookup_insert_Some in Hc as [[<- <-]|[_ Hc]]; [done|].
  apply lookup_insert_Some in Hc as [[<- <-]|[_ Hc]]; [done|].
  apply lookup_singleton_Some in Hc as [<- <-]. injection Hd as <-.
  rewrite list_elem_of_singleton. split.
  - intros ->. eexists. split; [apply lookup_insert_eq|]. cbn.
    apply list_elem_of_here.
  - intros (nx & Hx & Hin).
    apply lookup_insert_Some in Hx as [[<- <-]|[_ Hx]]; [done|].
    apply lookup_insert_Some in Hx as [[<- <-]|[_ Hx]];
      [by apply elem_of_nil in Hin|].
    apply lookup_singleton_Some in Hx as [<- <-]. by apply elem_of_nil in Hin.
Qed.


(** X16 at the list that holds [x], and the stranger [y]. *)
Lemma add_then_get_witness :
  outcome (QDataList.items 3%positive) list_and_stranger = Return [1%positive] ∧
  list_and_stranger !! 2%positive = Some (Node ∅ [] (PData ∅)) ∧
  outcome (QDataList.get 3%positive (length [1%positive]))
    (state_after (QDataList.add no_callbacks 3%positive 2%positive)
       list_and_stranger) = Return (Some 2%positive).
Proof.
  split; [reflexivity|]. split; [reflexivity|].
  apply (add_then_get no_callbacks list_and_stranger 3%positive 2%positive
           [1%positive] (Node ∅ [] (PData ∅)));
    reflexivity.
Defined.

(** X17 at the list that holds [x] alone. *)
Lemma remove_twice_witness :
  outcome (QDataList.items 2%positive) list_of_one = Return [1%positive] ∧
  1%positive ∈ [1%positive] ∧
  list_of_one !! 1%positive = Some (Node ∅ [2%positive] (PData ∅)) ∧
  outcome (QDataList.remove no_callbacks 2%positive 1%positive)
    (state_after (QDataList.remove no_callbacks 2%positive 1%positive) list_of_one)
  = Throw (Error
      "Attempted to remove QDataObject from a collection it wasn't a member of") ∧
  outcome (QDataList.items 2%positive)
    (state_after (QDataList.remove no_callbacks 2%positive 1%positive) list_of_one)
  = Return (filter (λ v, v ≠ 1%positive) [1%positive]).
Proof.
  split; [reflexivity|]. split; [apply list_elem_of_here|].
  split; [reflexivity|].
  apply (remove_twice no_callbacks list_of_one 2%positive 1%positive
           [1%positive] (Node ∅ [2%positive] (PData ∅)));
    [reflexivity|apply list_elem_of_here|reflexivity].
Defined.

(** X18 at the empty dictionary, the key [a] and the Record [x]. *)
Lemma dict_add_removeKey_restores_witness :
  outcome (QDataDict.entries 3%positive) empty_dict = Return ∅ ∧
  ((∅ : gmap string loc) !! "a") = None ∧
  empty_dict !! 1%positive = Some (Node ∅ [] (PData ∅)) ∧
  (3%positive ∉ _parents (Node (callback := Empty_set) ∅ [] (PData ∅))) ∧
  state_after (QDataDict.removeKey no_callbacks 3%positive "a")
    (state_after (QDataDict.add no_callbacks 3%positive "a" 1%positive) empty_dict)
  = empty_dict.
Proof.
  split; [reflexivity|]. split; [reflexivity|]. split; [reflexivity|].
  split; [apply not_elem_of_nil|].
  apply (dict_add_removeKey_restores no_callbacks empty_dict 3%positive "a"
           1%positive ∅ (Node ∅ [] (PData ∅)));
    [reflexivity|reflexivity|reflexivity|apply not_elem_of_nil].
Defined.

(** X19 at the dictionary that holds [x] under [a] and under [b]. *)
Lemma dict_removeKey_drops_shared_parent_witness :
  outcome (QDataDict.entries 3%positive) dict_shared
    = Return {[ "a" := 1%positive; "b" := 1%positive ]} ∧
  (({[ "a" := 1%positive; "b" := 1%positive ]} : gmap string loc) !! "a")
    = Some 1%positive ∧
  (({[ "a" := 1%positive; "b" := 1%positive ]} : gmap string loc) !! "b")
    = Some 1%positive ∧
  "a" ≠ "b" ∧
  dict_shared !! 1%positive = Some (Node ∅ [3%positive; 3%positive] (PData ∅)) ∧
  ∃ m' nx',
    outcome (QDataDict.entries 3%positive)
      (state_after (QDataDict.removeKey no_callbacks 3%positive "a") dict_shared)
      = Return m' ∧
    m' !! "b" = Some 1%positive ∧
    state_after (QDataDict.removeKey no_callbacks 3%positive "a") dict_shared
      !! 1%positive = Some nx' ∧
    3%positive ∉ _parents nx'.
Proof.
  split; [vm_compute; reflexivity|]. split; [reflexivity|].
  split; [reflexivity|]. split; [done|]. split; [vm_compute; reflexivity|].
  apply (dict_removeKey_drops_shared_parent no_callbacks dict_shared 3%positive
           "a" "b" 1%positive {[ "a" := 1%positive; "b" := 1%positive ]}
           (Node ∅ [3%positive; 3%positive] (PData ∅)));
    [vm_compute; reflexivity|reflexivity|reflexivity|done|vm_compute; reflexivity].
Defined.


(** The comparator of the examples orders by the key shown. *)
Lemma by_key_orders_by_shown (a b : QWidgetGroup.QWidget Z) :
  ((by_key a b < 0)%Z ↔ (QWidgetGroup.shown a < QWidgetGroup.shown b)%Z) ∧
  ((by_key a b = 0)%Z ↔ QWidgetGroup.shown a = QWidgetGroup.shown b).
Proof. unfold by_key. lia. Qed.

(** X23 at the widgets with the keys 1 and 3 and a widget with key 2. *)
Lemma insertWidget_within_range_witness :
  (∀ a b : QWidgetGroup.QWidget Z,
     ((by_key a b < 0)%Z ↔ (QWidgetGroup.shown a < QWidgetGroup.shown b)%Z) ∧
     ((by_key a b = 0)%Z ↔ QWidgetGroup.shown a = QWidgetGroup.shown b)) ∧
  StronglySorted (by_key_le QWidgetGroup.shown) widgets_1_3 ∧
  head widgets_1_3 = Some (QWidgetGroup.Widget 0 1%Z) ∧
  last widgets_1_3 = Some (QWidgetGroup.Widget 1 3%Z) ∧
  (1 ≤ 2 ≤ 3)%Z ∧
  ∃ children' idx,
    QWidgetGroup._insertWidget by_key (QWidgetGroup.Widget 2 2%Z) widgets_1_3
      = Some (children', Return idx) ∧
    StronglySorted (by_key_le QWidgetGroup.shown) children' ∧
    (0 ≤ idx)%Z ∧
    children' !! Z.to_nat idx = Some (QWidgetGroup.Widget 2 2%Z).
Proof.
  assert (StronglySorted (by_key_le QWidgetGroup.shown) widgets_1_3) as Hsorted.
  { repeat constructor. unfold by_key_le. cbn [QWidgetGroup.shown]. lia. }
  split; [exact by_key_orders_by_shown|]. split; [exact Hsorted|].
  split; [reflexivity|]. split; [reflexivity|]. split; [lia|].
  apply (insertWidget_within_range by_key QWidgetGroup.shown by_key_orders_by_shown
           (QWidgetGroup.Widget 2 2%Z) widgets_1_3
           (QWidgetGroup.Widget 0 1%Z) (QWidgetGroup.Widget 1 3%Z));
    [exact Hsorted|reflexivity|reflexivity|cbn; lia].
Defined.

(** X24 at the widget with key 2 and a new widget with key 1. *)
Lemma insertWidget_smallest_is_appended_witness :
  (∀ c, c ∈ [QWidgetGroup.Widget 0 2%Z] →
     (by_key (QWidgetGroup.Widget 1 1%Z) c < 0)%Z) ∧
  QWidgetGroup._insertWidget by_key (QWidgetGroup.Widget 1 1%Z)
      [QWidgetGroup.Widget 0 2%Z]
    = Some ([QWidgetGroup.Widget 0 2%Z] ++ [QWidgetGroup.Widget 1 1%Z], Return 0%Z).
Proof.
  assert (∀ c, c ∈ [QWidgetGroup.Widget 0 2%Z] →
            (by_key (QWidgetGroup.Widget 1 1%Z) c < 0)%Z) as Hsmall.
  { intros c ->%list_elem_of_singleton. reflexivity. }
  split; [exact Hsmall|].
  apply (insertWidget_smallest_is_appended by_key (QWidgetGroup.Widget 1 1%Z)
           [QWidgetGroup.Widget 0 2%Z] Hsmall).
Defined.

(** X25 at the widget with key 2 and a new widget with key 3. *)
Lemma insertWidget_largest_returns_zero_witness :
  (∀ c, c ∈ [QWidgetGroup.Widget 0 2%Z] →
     (0 < by_key (QWidgetGroup.Widget 1 3%Z) c)%Z) ∧
  QWidgetGroup._insertWidget by_key (QWidgetGroup.Widget 1 3%Z)
      [QWidgetGroup.Widget 0 2%Z]
    = Some ([QWidgetGroup.Widget 0 2%Z] ++ [QWidgetGroup.Widget 1 3%Z], Return 0%Z).
Proof.
  assert (∀ c, c ∈ [QWidgetGroup.Widget 0 2%Z] →
            (0 < by_key (QWidgetGroup.Widget 1 3%Z) c)%Z) as Hlarge.
  { intros c ->%list_elem_of_singleton. reflexivity. }
  split; [exact Hlarge|].
  apply (insertWidget_largest_returns_zero by_key (QWidgetGroup.Widget 1 3%Z)
           [QWidgetGroup.Widget 0 2%Z] Hlarge).
Defined.



End Further_concrete.
